(** * Hand-gesture music player: a shallow embedding of [music_player.py]

    The script is one module: a start-up part that builds the playlist and
    binds the volume device, four pose classifiers over MediaPipe hand
    landmarks, and a frame loop that turns classifier verdicts into
    transport commands (debounced by two timestamps) and into a volume
    level.

    Numbers.  Python's [float] values (landmark coordinates, timestamps,
    volume levels) are modelled as exact rationals [Q]; comparison,
    subtraction and the linear interpolation are then the exact ones.
    The square root inside [math.hypot] is rounded down to a fixed binary
    grid and is exact on perfect squares.  Python's [int] values are [Z].

    Exceptions.  Indexing out of range and [%] by zero raise in Python;
    the embedding returns [Raise] in a small error monad. *)

From Stdlib Require Import ZArith QArith Qround Lqa Lia.
From Stdlib Require Import List String Ascii Bool.
From Stdlib Require Import Sorted Permutation.
Import ListNotations.

Local Open Scope Z_scope.

(* ================================================================= *)
(** ** Python primitives *)

Module Py.

Inductive exn : Set :=
| IndexError
| ZeroDivisionError.

Inductive result (A : Type) : Type :=
| Ok (a : A)
| Raise (e : exn).

Arguments Ok {A} a.
Arguments Raise {A} e.

Definition bind {A B : Type} (m : result A) (k : A -> result B) : result B :=
  match m with
  | Ok a => k a
  | Raise e => Raise e
  end.

(** [[f(i) for i in ids]]: elements are evaluated left to right and the
    first exception aborts the comprehension. *)
Fixpoint comprehension {A B : Type} (f : A -> result B) (ids : list A)
  : result (list B) :=
  match ids with
  | [] => Ok []
  | i :: rest =>
      bind (f i) (fun b =>
      bind (comprehension f rest) (fun bs => Ok (b :: bs)))
  end.

(** [a < b] and [a > b] on floats. *)
Definition Qltb (a b : Q) : bool :=
  Qnum a * QDen b <? Qnum b * QDen a.

Definition Qgtb (a b : Q) : bool := Qltb b a.

(** [a <= b] and [a >= b], used by the interpolation of numpy. *)
Definition Qleb (a b : Q) : bool := negb (Qltb b a).

(** [int(v)] of a float: truncation towards zero. *)
Definition int (v : Q) : Z := Z.quot (Qnum v) (QDen v).

(** [len(l)]. *)
Definition len {A : Type} (l : list A) : Z := Z.of_nat (List.length l).

(** [a % b] on ints: the result has the sign of [b]; [b = 0] raises. *)
Definition mod_ (a b : Z) : result Z :=
  if b =? 0 then Raise ZeroDivisionError else Ok (a mod b).

(** [l[i]] on a list: negative indices count from the end. *)
Definition getitem {A : Type} (l : list A) (i : Z) : result A :=
  let j := if i <? 0 then i + len l else i in
  if j <? 0 then Raise IndexError
  else match nth_error l (Z.to_nat j) with
       | Some a => Ok a
       | None => Raise IndexError
       end.

(** [s.endswith(suffix)]. *)
Definition endswith (s suffix : string) : bool :=
  let n := String.length s in
  let m := String.length suffix in
  (m <=? n)%nat && String.eqb (substring (n - m) m s) suffix.

(** [l.sort()] on a list of strings: ascending by code points. *)
Fixpoint insort (s : string) (l : list string) : list string :=
  match l with
  | [] => [s]
  | t :: rest => if String.ltb s t then s :: l else t :: insort s rest
  end.

Definition sort (l : list string) : list string :=
  fold_left (fun acc s => insort s acc) l [].

(** Square root on the rationals, rounded down to multiples of
    [1 / (den * 2^64)]; it is exact whenever the argument is the square
    of a rational. *)
Definition sqrt_down (q : Q) : Q :=
  if Qnum q <=? 0 then 0%Q
  else Z.sqrt (Qnum q * QDen q * 2 ^ 128) # (Qden q * 2 ^ 64).

(** [math.hypot(a, b)]. *)
Definition hypot (a b : Q) : Q := sqrt_down (a * a + b * b)%Q.

(** [np.interp(v, [x0, x1], [f0, f1])] for a scalar [v] and two sample
    points: the end values outside [[x0, x1]] and at its ends, the
    straight line through the two samples in between. *)
Definition interp (v x0 x1 f0 f1 : Q) : Q :=
  if Qltb x1 v then f1
  else if Qltb v x0 then f0
  else if Qleb x1 v then f1
  else if Qleb v x0 then f0
  else ((f1 - f0) / (x1 - x0) * (v - x0) + f0)%Q.

End Py.

Import Py.

Declare Scope py_scope.
Delimit Scope py_scope with py.
Notation "x <- m ;; k" := (bind m (fun x => k))
  (at level 61, m at next level, right associativity) : py_scope.
Local Open Scope py_scope.

(* ================================================================= *)
(** ** Hand landmarks (MediaPipe) *)

(** One landmark: normalised image coordinates. *)
Module Landmark.
Record t : Set := mk { x : Q; y : Q }.
End Landmark.

(** [hand_landmark.landmark] is the repeated field holding the points;
    the detector delivers 21 of them, wrist first. *)
Record NormalizedLandmarkList : Set :=
  { landmark : list Landmark.t }.

(** [landmarks.landmark[i]] for a literal index. *)
Definition landmark_at (landmarks : NormalizedLandmarkList) (i : nat)
  : result Landmark.t :=
  match nth_error (landmark landmarks) i with
  | Some p => Ok p
  | None => Raise IndexError
  end.

(* ================================================================= *)
(** ** The gesture classifiers *)

Definition is_wave_left (landmarks : NormalizedLandmarkList) : result bool :=
  wrist <- landmark_at landmarks 0 ;;
  finger_tips <- comprehension (landmark_at landmarks) [4; 8; 12; 16; 20]%nat ;;
  Ok (forallb (fun tip => Qltb (Landmark.x tip) (Landmark.x wrist - 0.1)%Q)
        finger_tips).

Definition is_wave_right (landmarks : NormalizedLandmarkList) : result bool :=
  wrist <- landmark_at landmarks 0 ;;
  finger_tips <- comprehension (landmark_at landmarks) [4; 8; 12; 16; 20]%nat ;;
  Ok (forallb (fun tip => Qgtb (Landmark.x tip) (Landmark.x wrist + 0.1)%Q)
        finger_tips).

Definition is_volume_control_gesture (landmarks : NormalizedLandmarkList)
  : result bool :=
  l8 <- landmark_at landmarks 8 ;;
  l6 <- landmark_at landmarks 6 ;;
  let index_up := Qltb (Landmark.y l8) (Landmark.y l6) in
  l4 <- landmark_at landmarks 4 ;;
  l3 <- landmark_at landmarks 3 ;;
  let thumb_up := Qltb (Landmark.x l4) (Landmark.x l3) in
  l12 <- landmark_at landmarks 12 ;;
  l10 <- landmark_at landmarks 10 ;;
  let middle_down := Qgtb (Landmark.y l12) (Landmark.y l10) in
  l16 <- landmark_at landmarks 16 ;;
  l14 <- landmark_at landmarks 14 ;;
  let ring_down := Qgtb (Landmark.y l16) (Landmark.y l14) in
  l20 <- landmark_at landmarks 20 ;;
  l18 <- landmark_at landmarks 18 ;;
  let pinky_down := Qgtb (Landmark.y l20) (Landmark.y l18) in
  Ok (index_up && thumb_up && middle_down && ring_down && pinky_down).

Definition is_play_pause_gesture (landmarks : NormalizedLandmarkList)
  : result bool :=
  thumb_tip <- landmark_at landmarks 4 ;;
  index_tip <- landmark_at landmarks 8 ;;
  let distance :=
    hypot (Landmark.x thumb_tip - Landmark.x index_tip)%Q
          (Landmark.y thumb_tip - Landmark.y index_tip)%Q in
  l12 <- landmark_at landmarks 12 ;;
  l10 <- landmark_at landmarks 10 ;;
  let middle_up := Qltb (Landmark.y l12) (Landmark.y l10) in
  l16 <- landmark_at landmarks 16 ;;
  l14 <- landmark_at landmarks 14 ;;
  let ring_up := Qltb (Landmark.y l16) (Landmark.y l14) in
  l20 <- landmark_at landmarks 20 ;;
  l18 <- landmark_at landmarks 18 ;;
  let pinky_up := Qltb (Landmark.y l20) (Landmark.y l18) in
  Ok (Qltb distance 0.05%Q && middle_up && ring_up && pinky_up).

(* ================================================================= *)
(** ** The player: constants, state and the collaborators it drives *)

(** The three one-shot commands the loop can accept; which branch of the
    loop body ran is recorded with one of these tags. *)
Inductive command : Set :=
| NextTrack
| PreviousTrack
| PlayPauseToggle.

(** [pygame.mixer.music], as far as the script drives and observes it.
    [load] stops what is playing and makes the file current, [play]
    starts it, [pause] and [unpause] suspend and resume it, and
    [get_busy] is true while a started track is not paused.  Every file
    of the playlist is taken to be one the engine can load: the
    [pygame.error] that [load] raises on an unreadable or non-audio file
    is not modelled, so statements about a run are about the runs in
    which no load fails. *)
Module Mixer.
Record t : Set := mk { loaded : option string; started : bool; paused : bool }.
Definition load (p : string) (m : t) : t := mk (Some p) false false.
Definition play (m : t) : t := mk (loaded m) true false.
Definition pause (m : t) : t := mk (loaded m) (started m) true.
Definition unpause (m : t) : t := mk (loaded m) (started m) false.
Definition get_busy (m : t) : bool := started m && negb (paused m).
End Mixer.

Definition songs_folder : string := "songs".
Definition cooldown_time : Q := 1.0.
Definition gesture_cooldown : Q := 1.
Definition message_duration : Q := 1.

(** [os.path.join(songs_folder, f)] for a bare file name; the separator
    is the platform's and is written [/] here. *)
Definition path_join (folder f : string) : string :=
  (folder ++ "/" ++ f)%string.

(** Names bound once at start-up and only read afterwards. *)
Record Config : Set :=
  { music_files : list string;
    minVol : Q;
    maxVol : Q }.

(** The module-level variables the loop assigns, with the two devices. *)
Record State : Set :=
  { current_song_index : Z;
    last_volume : Q;
    last_wave_time : Q;
    last_gesture_time : Q;
    current_message : string;
    message_start_time : Q;
    mixer : Mixer.t;
    master_volume : Q }.

(** What one iteration reads from the outside: [cap.read()], the
    detector's [results.multi_hand_landmarks] (empty for [None]; the
    handedness list zipped with it has the same length and is not read),
    [time.time()], [frame.shape] as (h, w), and whether [q] is pressed. *)
Record Frame : Set :=
  { success : bool;
    multi_hand_landmarks : list NormalizedLandmarkList;
    current_time : Q;
    shape : Z * Z;
    key_q : bool }.

(** What one iteration shows and does, and the state it leaves. *)
Record FrameOut : Set :=
  { commands : list command;
    volPer : Z;
    shown_message : string;
    state_after : State }.

Definition next_song_index (cfg : Config) (i : Z) : result Z :=
  mod_ (i + 1) (len (music_files cfg)).

Definition previous_song_index (cfg : Config) (i : Z) : result Z :=
  mod_ (i - 1) (len (music_files cfg)).

(** The [if is_wave_left(...)] branch (lines 247-252). *)
Definition next_song (cfg : Config) (now : Q) (st : State) : result State :=
  i <- next_song_index cfg (current_song_index st) ;;
  p <- getitem (music_files cfg) i ;;
  Ok {| current_song_index := i;
        last_volume := last_volume st;
        last_wave_time := now;
        last_gesture_time := last_gesture_time st;
        current_message := "Next Song";
        message_start_time := now;
        mixer := Mixer.play (Mixer.load p (mixer st));
        master_volume := master_volume st |}.

(** The [elif is_wave_right(...)] branch (lines 256-261). *)
Definition previous_song (cfg : Config) (now : Q) (st : State) : result State :=
  i <- previous_song_index cfg (current_song_index st) ;;
  p <- getitem (music_files cfg) i ;;
  Ok {| current_song_index := i;
        last_volume := last_volume st;
        last_wave_time := now;
        last_gesture_time := last_gesture_time st;
        current_message := "Previous Song";
        message_start_time := now;
        mixer := Mixer.play (Mixer.load p (mixer st));
        master_volume := master_volume st |}.

(** The body of the play/pause branch (lines 265-272). *)
Definition play_pause (now : Q) (st : State) : State :=
  let busy := Mixer.get_busy (mixer st) in
  {| current_song_index := current_song_index st;
     last_volume := last_volume st;
     last_wave_time := last_wave_time st;
     last_gesture_time := now;
     current_message := if busy then "Paused" else "Playing";
     message_start_time := now;
     mixer := if busy then Mixer.pause (mixer st) else Mixer.unpause (mixer st);
     master_volume := master_volume st |}.

(** Wave detection and the play/pause trigger for one hand (lines
    244-272); the list returned names the branch that ran, if any. *)
Definition discrete_commands (cfg : Config) (now : Q)
  (hand_landmark : NormalizedLandmarkList) (st : State)
  : result (State * list command) :=
  if Qgtb (now - last_wave_time st)%Q cooldown_time then
    wl <- is_wave_left hand_landmark ;;
    if wl then
      st' <- next_song cfg now st ;; Ok (st', [NextTrack])
    else
      wr <- is_wave_right hand_landmark ;;
      if wr then
        st' <- previous_song cfg now st ;; Ok (st', [PreviousTrack])
      else
        pp <- is_play_pause_gesture hand_landmark ;;
        if pp && Qgtb (now - last_gesture_time st)%Q gesture_cooldown then
          Ok (play_pause now st, [PlayPauseToggle])
        else Ok (st, [])
  else Ok (st, []).

(** [np.interp(length, [30, 250], [minVol, maxVol])]. *)
Definition new_volume_of (cfg : Config) (length : Q) : Q :=
  interp length 30 250 (minVol cfg) (maxVol cfg).

(** [int(np.interp(length, [30, 250], [0, 100]))]. *)
Definition volPer_of (length : Q) : Z :=
  int (interp length 30 250 0 100).

(** The volume section for one hand (lines 275-300, drawing left out);
    [vp] is the percentage to display. *)
Definition volume_control (cfg : Config) (f : Frame)
  (hand_landmark : NormalizedLandmarkList) (st : State) (vp : Z)
  : result (State * Z) :=
  vg <- is_volume_control_gesture hand_landmark ;;
  if vg then
    let '(h, w) := shape f in
    thumb <- landmark_at hand_landmark 4 ;;
    index <- landmark_at hand_landmark 8 ;;
    let thumb_x := int (Landmark.x thumb * inject_Z w)%Q in
    let thumb_y := int (Landmark.y thumb * inject_Z h)%Q in
    let index_x := int (Landmark.x index * inject_Z w)%Q in
    let index_y := int (Landmark.y index * inject_Z h)%Q in
    let length := hypot (inject_Z (index_x - thumb_x))
                        (inject_Z (index_y - thumb_y)) in
    let new_volume := new_volume_of cfg length in
    Ok ({| current_song_index := current_song_index st;
           last_volume := new_volume;
           last_wave_time := last_wave_time st;
           last_gesture_time := last_gesture_time st;
           current_message := current_message st;
           message_start_time := message_start_time st;
           mixer := mixer st;
           master_volume := new_volume |},
        volPer_of length)
  else Ok (st, vp).

(** The body of the [for] loop over the detected hands. *)
Definition per_hand (cfg : Config) (f : Frame)
  (hand_landmark : NormalizedLandmarkList) (acc : State * list command * Z)
  : result (State * list command * Z) :=
  let '(st, cmds, vp) := acc in
  r <- discrete_commands cfg (current_time f) hand_landmark st ;;
  let '(st1, fired) := r in
  v <- volume_control cfg f hand_landmark st1 vp ;;
  let '(st2, vp') := v in
  Ok (st2, (cmds ++ fired)%list, vp').

Fixpoint for_hands (cfg : Config) (f : Frame)
  (hands : list NormalizedLandmarkList) (acc : State * list command * Z)
  : result (State * list command * Z) :=
  match hands with
  | [] => Ok acc
  | hand_landmark :: rest =>
      acc' <- per_hand cfg f hand_landmark acc ;;
      for_hands cfg f rest acc'
  end.

(** The message section at the end of an iteration (lines 303-307). *)
Definition show_message (now : Q) (st : State) : State * string :=
  if negb (String.eqb (current_message st) "")
     && Qltb (now - message_start_time st)%Q message_duration
  then (st, current_message st)
  else ({| current_song_index := current_song_index st;
           last_volume := last_volume st;
           last_wave_time := last_wave_time st;
           last_gesture_time := last_gesture_time st;
           current_message := "";
           message_start_time := message_start_time st;
           mixer := mixer st;
           master_volume := master_volume st |}, ""%string).

(** One iteration of [while True], after a successful [cap.read()]
    (lines 230-311). *)
Definition frame_iteration (cfg : Config) (st : State) (f : Frame)
  : result FrameOut :=
  let vp0 := int (interp (last_volume st) (minVol cfg) (maxVol cfg) 0 100) in
  r <- for_hands cfg f (multi_hand_landmarks f) (st, [], vp0) ;;
  let '(st1, cmds, vp) := r in
  let '(st2, msg) := show_message (current_time f) st1 in
  Ok {| commands := cmds;
        volPer := vp;
        shown_message := msg;
        state_after := st2 |}.

(** The loop over the frames the camera delivers.  It stops at a failed
    read, after the iteration in which [q] is pressed, and at an
    exception; the outputs of the completed iterations are kept. *)
Fixpoint main_loop (cfg : Config) (st : State) (frames : list Frame)
  : list FrameOut * result State :=
  match frames with
  | [] => ([], Ok st)
  | f :: rest =>
      if negb (success f) then ([], Ok st)
      else match frame_iteration cfg st f with
           | Raise e => ([], Raise e)
           | Ok out =>
               if key_q f then ([out], Ok (state_after out))
               else let '(outs, r) := main_loop cfg (state_after out) rest in
                    (out :: outs, r)
           end
  end.

(** The script up to the loop (lines 38-126): playlist, first load,
    volume device.
    [listing] is what [os.listdir] returns, [volRange] and [level] what
    the endpoint reports. *)
Definition startup (listing : list string) (volRange : Q * Q) (level : Q)
  : result (Config * State) :=
  let music_files :=
    sort (map (path_join songs_folder)
            (filter (fun f => endswith f ".mp3") listing)) in
  let current_song_index := 0 in
  first <- getitem music_files current_song_index ;;
  let m := Mixer.load first (Mixer.mk None false false) in
  Ok ({| music_files := music_files;
         minVol := fst volRange;
         maxVol := snd volRange |},
      {| current_song_index := current_song_index;
         last_volume := level;
         last_wave_time := 0;
         last_gesture_time := 0;
         current_message := "";
         message_start_time := 0;
         mixer := m;
         master_volume := level |}).

(** The whole script on a finite run of camera frames. *)
Definition main (listing : list string) (volRange : Q * Q) (level : Q)
  (frames : list Frame) : list FrameOut * result State :=
  match startup listing volRange level with
  | Raise e => ([], Raise e)
  | Ok (cfg, st) => main_loop cfg st frames
  end.

(* ================================================================= *)
(** ** Sample inputs *)

(** A hand given by its 21 points. *)
Definition hand_of (point : nat -> Q * Q) : NormalizedLandmarkList :=
  {| landmark := map (fun i => Landmark.mk (fst (point i)) (snd (point i)))
                   (seq 0 21) |}.

(** Open hand pointing left: the wrist at x = 0.8, every other point at
    x = 0.5. *)
Definition hand_wave_left : NormalizedLandmarkList :=
  hand_of (fun i => match i with O => (0.8, 0.5) | _ => (0.5, 0.5) end)%Q.

(** Open hand pointing right: the wrist at x = 0.2. *)
Definition hand_wave_right : NormalizedLandmarkList :=
  hand_of (fun i => match i with O => (0.2, 0.5) | _ => (0.5, 0.5) end)%Q.

(** Fingertips exactly 0.1 left of the wrist. *)
Definition hand_on_margin : NormalizedLandmarkList :=
  hand_of (fun i => match i with O => (0.5, 0.5) | _ => (0.4, 0.5) end)%Q.

(** OK sign: thumb tip on index tip, middle, ring and pinky tips (12,
    16, 20) above their joints (10, 14, 18), nothing off to the side. *)
Definition hand_ok_sign : NormalizedLandmarkList :=
  hand_of (fun i =>
    if (Nat.eqb i 12 || Nat.eqb i 16 || Nat.eqb i 20)%bool then (0.5, 0.2)
    else if (Nat.eqb i 10 || Nat.eqb i 14 || Nat.eqb i 18)%bool then (0.5, 0.4)
    else (0.5, 0.5))%Q.

(** Pinch-ready pose: index tip (8) above its joint (6), thumb tip (4)
    inward of its joint (3), the other three tips below their joints. *)
Definition hand_pinch (thumb_tip index_tip : Q * Q) : NormalizedLandmarkList :=
  hand_of (fun i =>
    if Nat.eqb i 4 then thumb_tip
    else if Nat.eqb i 8 then index_tip
    else if Nat.eqb i 3 then (1, 1)
    else if Nat.eqb i 6 then (0.5, 1)
    else if (Nat.eqb i 12 || Nat.eqb i 16 || Nat.eqb i 20)%bool then (0.5, 0.6)
    else (0.5, 0.5))%Q.

Definition frame_at (now : Q) (hands : list NormalizedLandmarkList) : Frame :=
  {| success := true;
     multi_hand_landmarks := hands;
     current_time := now;
     shape := (480, 640);
     key_q := false |}.

Definition three_tracks : list string := ["a.mp3"; "b.mp3"; "c.mp3"]%string.

Definition cfg3 : Config :=
  {| music_files := map (path_join songs_folder) three_tracks;
     minVol := -65.25;
     maxVol := 0 |}.

(** The state right after start-up with [three_tracks]. *)
Definition st0 : State :=
  {| current_song_index := 0;
     last_volume := -20;
     last_wave_time := 0;
     last_gesture_time := 0;
     current_message := "";
     message_start_time := 0;
     mixer := Mixer.mk (Some "songs/a.mp3"%string) false false;
     master_volume := -20 |}.

(** The state after a first NextTrack at t = 900: track 1 is playing. *)
Definition st_playing : State :=
  match next_song cfg3 900 st0 with
  | Ok st => st
  | Raise _ => st0
  end.

(* ================================================================= *)
(** ** Vocabulary of the statements *)

(** The detector's contract: 21 points per hand. *)
Definition well_formed (h : NormalizedLandmarkList) : Prop :=
  List.length (landmark h) = 21%nat.

Definition well_formed_frame (f : Frame) : Prop :=
  Forall well_formed (multi_hand_landmarks f).

(** Point [i] of a hand (the origin past the end). *)
Definition point (h : NormalizedLandmarkList) (i : nat) : Landmark.t :=
  nth i (landmark h) (Landmark.mk 0 0).

Definition finger_tip_ids : list nat := [4; 8; 12; 16; 20]%nat.

(** The two debounce gates, as propositions. *)
Definition wave_gate_open (now : Q) (st : State) : Prop :=
  (cooldown_time < now - last_wave_time st)%Q.

Definition gesture_gate_open (now : Q) (st : State) : Prop :=
  (gesture_cooldown < now - last_gesture_time st)%Q.

Definition index_valid (cfg : Config) (st : State) : Prop :=
  0 <= current_song_index st < len (music_files cfg).

Definition command_eqb (a b : command) : bool :=
  match a, b with
  | NextTrack, NextTrack => true
  | PreviousTrack, PreviousTrack => true
  | PlayPauseToggle, PlayPauseToggle => true
  | _, _ => false
  end.

(** How often command [c] was accepted over a run of iterations. *)
Definition accepted (c : command) (outs : list FrameOut) : nat :=
  List.length (filter (command_eqb c) (List.concat (map commands outs))).

(** The shapes a frame's accepted commands can take, in hand order. *)
Definition frame_shape (cmds : list command) : Prop :=
  cmds = [] \/
  cmds = [NextTrack] \/ cmds = [PreviousTrack] \/ cmds = [PlayPauseToggle] \/
  cmds = [PlayPauseToggle; NextTrack] \/
  cmds = [PlayPauseToggle; PreviousTrack].

(** Frame [f] with its timestamp replaced by [t]. *)
Definition at_time (t : Q) (f : Frame) : Frame :=
  {| success := success f;
     multi_hand_landmarks := multi_hand_landmarks f;
     current_time := t;
     shape := shape f;
     key_q := key_q f |}.

(** Where the hand loop of one frame stands, given the commands accepted
    so far: nothing yet; a toggle, which stamped [last_gesture_time]; or
    a wave, which stamped [last_wave_time]. *)
Definition debounce_phase (now : Q) (st : State) (cmds : list command)
  : Prop :=
  cmds = [] \/
  (cmds = [PlayPauseToggle] /\ last_gesture_time st = now) \/
  ((cmds = [NextTrack] \/ cmds = [PreviousTrack] \/
    cmds = [PlayPauseToggle; NextTrack] \/
    cmds = [PlayPauseToggle; PreviousTrack]) /\
   last_wave_time st = now).

(** The script's copy of the volume agrees with the device, and the
    device level is inside the range the endpoint reported. *)
Definition level_ok (cfg : Config) (st : State) : Prop :=
  last_volume st = master_volume st /\
  (minVol cfg <= master_volume st <= maxVol cfg)%Q.

(** The mixer holds the track the playlist position points at. *)
Definition track_loaded (cfg : Config) (st : State) : Prop :=
  exists p, getitem (music_files cfg) (current_song_index st) = Ok p /\
            Mixer.loaded (mixer st) = Some p.

(** The text each command puts on screen. *)
Definition command_message (c : command) (msg : string) : Prop :=
  match c with
  | NextTrack => msg = "Next Song"%string
  | PreviousTrack => msg = "Previous Song"%string
  | PlayPauseToggle => msg = "Paused"%string \/ msg = "Playing"%string
  end.

Definition is_wave (c : command) : bool :=
  match c with
  | NextTrack | PreviousTrack => true
  | PlayPauseToggle => false
  end.

(** Whether a frame's accepted commands hold a wave, or a toggle. *)
Definition has_wave (cmds : list command) : bool := existsb is_wave cmds.

Definition has_toggle (cmds : list command) : bool :=
  existsb (fun c => negb (is_wave c)) cmds.

(** [k] accepted NextTrack commands in a row, at the times [now i]. *)
Fixpoint next_songs (cfg : Config) (now : nat -> Q) (k : nat) (st : State)
  : result State :=
  match k with
  | O => Ok st
  | S k' => st' <- next_songs cfg now k' st ;; next_song cfg (now k') st'
  end.

(** Ascending order of strings by code points. *)
Definition string_le (a b : string) : Prop := String.leb a b = true.

(** The pixel distance between thumb tip and index tip of a hand, as
    the volume section measures it. *)
Definition pinch_length (f : Frame) (h : NormalizedLandmarkList) : Q :=
  let '(hh, w) := shape f in
  hypot
    (inject_Z (int (Landmark.x (point h 8) * inject_Z w)
               - int (Landmark.x (point h 4) * inject_Z w)))
    (inject_Z (int (Landmark.y (point h 8) * inject_Z hh)
               - int (Landmark.y (point h 4) * inject_Z hh))).

(** The hand shows the volume pose. *)
Definition pinching (h : NormalizedLandmarkList) : bool :=
  match is_volume_control_gesture h with
  | Ok true => true
  | _ => false
  end.

(** The pinch length of the last hand of a frame that shows the volume
    pose, if there is one. *)
Definition last_pinch (f : Frame) (hands : list NormalizedLandmarkList)
  : option Q :=
  fold_left (fun acc h => if pinching h then Some (pinch_length f h) else acc)
    hands None.

(* ================================================================= *)
(** ** Comparisons and the error monad *)

Lemma Qltb_lt (a b : Q) : Qltb a b = true <-> (a < b)%Q.
Proof. unfold Qltb, Qlt. apply Z.ltb_lt. Qed.

Lemma Qltb_ge (a b : Q) : Qltb a b = false <-> (b <= a)%Q.
Proof. unfold Qltb, Qle. rewrite Z.ltb_ge. reflexivity. Qed.

Lemma Qgtb_gt (a b : Q) : Qgtb a b = true <-> (b < a)%Q.
Proof. apply Qltb_lt. Qed.

Lemma Qgtb_le (a b : Q) : Qgtb a b = false <-> (a <= b)%Q.
Proof. apply Qltb_ge. Qed.

Lemma Qleb_le (a b : Q) : Qleb a b = true <-> (a <= b)%Q.
Proof.
  unfold Qleb. rewrite negb_true_iff. apply Qltb_ge.
Qed.

Lemma Qleb_gt (a b : Q) : Qleb a b = false <-> (b < a)%Q.
Proof.
  unfold Qleb. rewrite negb_false_iff. apply Qltb_lt.
Qed.

(** Case analysis on a comparison, leaving the order fact in context. *)
Ltac qcases :=
  repeat match goal with
    | |- context [Qltb ?a ?b] =>
        let E := fresh "E" in
        destruct (Qltb a b) eqn:E;
        [apply Qltb_lt in E | apply Qltb_ge in E]
    | |- context [Qleb ?a ?b] =>
        let E := fresh "E" in
        destruct (Qleb a b) eqn:E;
        [apply Qleb_le in E | apply Qleb_gt in E]
    end.

Lemma landmark_at_point (h : NormalizedLandmarkList) (i : nat) :
  (i < List.length (landmark h))%nat -> landmark_at h i = Ok (point h i).
Proof.
  intros Hi. unfold landmark_at, point.
  destruct (nth_error (landmark h) i) eqn:E.
  - erewrite nth_error_nth by eassumption. reflexivity.
  - apply nth_error_None in E. lia.
Qed.

(** On a well-formed hand every literal index of the script is in range. *)
Ltac points h H :=
  unfold well_formed in H;
  repeat match goal with
    | |- context [landmark_at h ?i] =>
        rewrite (landmark_at_point h i) by (rewrite H; lia)
    end.

Lemma is_wave_left_points (h : NormalizedLandmarkList) :
  well_formed h ->
  is_wave_left h =
  Ok (forallb (fun i => Qltb (Landmark.x (point h i))
                          (Landmark.x (point h 0) - 0.1)%Q) finger_tip_ids).
Proof.
  intros H. unfold is_wave_left. cbn [comprehension]. points h H.
  reflexivity.
Qed.

Lemma is_wave_right_points (h : NormalizedLandmarkList) :
  well_formed h ->
  is_wave_right h =
  Ok (forallb (fun i => Qgtb (Landmark.x (point h i))
                          (Landmark.x (point h 0) + 0.1)%Q) finger_tip_ids).
Proof.
  intros H. unfold is_wave_right. cbn [comprehension]. points h H.
  reflexivity.
Qed.

Lemma is_volume_control_gesture_total (h : NormalizedLandmarkList) :
  well_formed h -> exists b, is_volume_control_gesture h = Ok b.
Proof.
  intros H. unfold is_volume_control_gesture. points h H.
  cbn [bind]. eexists. reflexivity.
Qed.

Lemma is_play_pause_gesture_total (h : NormalizedLandmarkList) :
  well_formed h -> exists b, is_play_pause_gesture h = Ok b.
Proof.
  intros H. unfold is_play_pause_gesture. points h H.
  cbn [bind]. eexists. reflexivity.
Qed.

(* ================================================================= *)
(** ** The classifiers *)

(** C3, as the code has it: the margin is strict.  On a hand of 21
    points, [is_wave_left] returns true when every fingertip (4, 8, 12,
    16, 20) has x strictly below wrist.x - 0.1, and false as soon as one
    fingertip has x at or above wrist.x - 0.1. *)
Theorem is_wave_left_strict_margin (h : NormalizedLandmarkList) :
  well_formed h ->
  ((forall i, In i finger_tip_ids ->
      (Landmark.x (point h i) < Landmark.x (point h 0) - 0.1)%Q) ->
   is_wave_left h = Ok true) /\
  (forall i, In i finger_tip_ids ->
      (Landmark.x (point h 0) - 0.1 <= Landmark.x (point h i))%Q ->
      is_wave_left h = Ok false).
Proof.
  intros H. rewrite (is_wave_left_points h H). split.
  - intros Hall. f_equal. apply forallb_forall.
    intros i Hi. apply Qltb_lt. apply Hall. exact Hi.
  - intros i Hi Hge. f_equal.
    destruct (forallb _ finger_tip_ids) eqn:E; [|reflexivity].
    rewrite forallb_forall in E. specialize (E i Hi).
    apply Qltb_lt in E. apply Qle_not_lt in Hge. contradiction.
Qed.

Lemma is_wave_left_strict_margin_witness :
  well_formed hand_wave_left /\
  is_wave_left hand_wave_left = Ok true /\
  is_wave_left hand_wave_right = Ok false.
Proof.
  split; [reflexivity|]. split.
  - apply (proj1 (is_wave_left_strict_margin hand_wave_left eq_refl)).
    intros i Hi. simpl in Hi.
    repeat (destruct Hi as [<-|Hi]; [reflexivity|]). destruct Hi.
  - apply (proj2 (is_wave_left_strict_margin hand_wave_right eq_refl) 4%nat).
    + simpl. auto.
    + discriminate.
Defined.

(** C3 as stated fails on the margin itself: with the wrist at x = 0.5
    and all five fingertips at x = 0.4 = wrist.x - 0.1, every fingertip
    satisfies [x <= wrist.x - 0.1], and [is_wave_left] returns false. *)
Lemma is_wave_left_on_margin_false :
  well_formed hand_on_margin /\
  (forall i, In i finger_tip_ids ->
     (Landmark.x (point hand_on_margin i)
      <= Landmark.x (point hand_on_margin 0) - 0.1)%Q) /\
  is_wave_left hand_on_margin = Ok false.
Proof.
  split; [reflexivity|]. split; [|reflexivity].
  intros i Hi. simpl in Hi.
  repeat (destruct Hi as [<-|Hi]; [discriminate|]). destruct Hi.
Qed.

(** C8: no landmark set is both a volume-control pose and a play/pause
    pose: the first needs tip 12 strictly below joint 10 (larger y), the
    second strictly above. *)
Theorem volume_and_play_pause_exclusive (h : NormalizedLandmarkList) :
  ~ (is_volume_control_gesture h = Ok true /\
     is_play_pause_gesture h = Ok true).
Proof.
  unfold is_volume_control_gesture, is_play_pause_gesture.
  intros [Hv Hp].
  repeat match type of Hv with
         | context [landmark_at h ?i] =>
             destruct (landmark_at h i) eqn:?; cbn [bind] in Hv, Hp;
             [|discriminate Hv]
         end.
  injection Hv as Hv. injection Hp as Hp.
  repeat rewrite andb_true_iff in Hv. repeat rewrite andb_true_iff in Hp.
  destruct Hv as [[[[_ _] Hdown] _] _]. destruct Hp as [[[_ Hup] _] _].
  apply Qgtb_gt in Hdown. apply Qltb_lt in Hup.
  exact (Qlt_irrefl _ (Qlt_trans _ _ _ Hdown Hup)).
Qed.

(* ================================================================= *)
(** ** The volume mapping *)

(** Between the samples the interpolation is the affine map through
    them. *)
Lemma interp_30_250_inside (v f0 f1 : Q) :
  (30 < v)%Q -> (v < 250)%Q ->
  (interp v 30 250 f0 f1 == f0 + (f1 - f0) * ((v - 30) / 220))%Q.
Proof.
  intros H1 H2. unfold interp. qcases; try lra. field.
Qed.

Lemma interp_30_250_low (v f0 f1 : Q) :
  (v <= 30)%Q -> interp v 30 250 f0 f1 = f0.
Proof.
  intros H. unfold interp. qcases; try reflexivity; lra.
Qed.

Lemma interp_30_250_high (v f0 f1 : Q) :
  (250 <= v)%Q -> interp v 30 250 f0 f1 = f1.
Proof.
  intros H. unfold interp. qcases; try reflexivity; lra.
Qed.

(** On the whole of [[30, 250]] the interpolation is the straight line
    from [f0] at 30 to [f1] at 250. *)
Lemma interp_30_250_line (v f0 f1 : Q) :
  (30 <= v <= 250)%Q ->
  (interp v 30 250 f0 f1 == f0 + (f1 - f0) * ((v - 30) / 220))%Q.
Proof.
  intros [H1 H2].
  destruct (Qlt_le_dec 30 v) as [L|L];
    [destruct (Qlt_le_dec v 250) as [U|U]|].
  - apply interp_30_250_inside; assumption.
  - rewrite (interp_30_250_high v f0 f1 U).
    assert (v == 250)%Q as E by lra. rewrite E. field.
  - rewrite (interp_30_250_low v f0 f1 L).
    assert (v == 30)%Q as E by lra. rewrite E. field.
Qed.

Lemma interp_30_250_bounds (v f0 f1 : Q) :
  (f0 <= f1)%Q ->
  (f0 <= interp v 30 250 f0 f1 <= f1)%Q.
Proof.
  intros Hf.
  destruct (Qlt_le_dec 30 v) as [H1|H1];
    [destruct (Qlt_le_dec v 250) as [H2|H2]|].
  - rewrite (interp_30_250_inside v f0 f1 H1 H2).
    assert (0 <= (v - 30) / 220 <= 1)%Q as [Ht0 Ht1].
    { split.
      - apply Qle_shift_div_l; lra.
      - apply Qle_shift_div_r; lra. }
    split; nra.
  - rewrite (interp_30_250_high v f0 f1 H2). lra.
  - rewrite (interp_30_250_low v f0 f1 H1). lra.
Qed.

Lemma interp_30_250_monotone (v1 v2 f0 f1 : Q) :
  (f0 <= f1)%Q -> (v1 <= v2)%Q ->
  (interp v1 30 250 f0 f1 <= interp v2 30 250 f0 f1)%Q.
Proof.
  intros Hf Hv.
  destruct (Qlt_le_dec 30 v1) as [H1|H1].
  - destruct (Qlt_le_dec v2 250) as [H2|H2].
    + rewrite (interp_30_250_inside v1 f0 f1) by lra.
      rewrite (interp_30_250_inside v2 f0 f1) by lra.
      assert ((v1 - 30) / 220 <= (v2 - 30) / 220)%Q.
      { apply Qmult_le_compat_r; [lra|]. discriminate. }
      nra.
    + rewrite (interp_30_250_high v2 f0 f1 H2).
      apply interp_30_250_bounds. exact Hf.
  - rewrite (interp_30_250_low v1 f0 f1 H1).
    apply interp_30_250_bounds. exact Hf.
Qed.

(** [int] of a non-negative value is its floor. *)
Lemma int_floor (q : Q) : (0 <= q)%Q -> int q = Qfloor q.
Proof.
  destruct q as [n d]. unfold int, Qfloor, Qle. cbn. intros H.
  apply Z.quot_div_nonneg; lia.
Qed.

Lemma int_monotone (p q : Q) : (0 <= p)%Q -> (p <= q)%Q -> int p <= int q.
Proof.
  intros H0 H. rewrite (int_floor p H0), (int_floor q) by lra.
  apply Qfloor_resp_le. exact H.
Qed.

(** C5: with the device range ordered ([minVol <= maxVol]), the level
    computed from the pixel distance is non-decreasing in the distance,
    is [minVol] at 30 and [maxVol] at 250, and is constant below 30 and
    above 250; between 30 and 250 it is the straight line
    [minVol + (maxVol - minVol) * (d - 30) / 220].  The displayed
    percentage is the integer part of the same line onto [0, 100],
    [100 * (d - 30) / 220]: it has the same clamps and end values and is
    non-decreasing, and the level is the percentage's interpolant
    rescaled to the device range. *)
Theorem volume_mapping_monotone_clamped (cfg : Config) :
  (minVol cfg <= maxVol cfg)%Q ->
  (forall d1 d2 : Q, (d1 <= d2)%Q ->
     (new_volume_of cfg d1 <= new_volume_of cfg d2)%Q) /\
  new_volume_of cfg 30 = minVol cfg /\
  new_volume_of cfg 250 = maxVol cfg /\
  (forall d : Q, (d <= 30)%Q -> new_volume_of cfg d = new_volume_of cfg 30) /\
  (forall d : Q, (250 <= d)%Q -> new_volume_of cfg d = new_volume_of cfg 250) /\
  (forall d : Q,
     let p := interp d 30 250 0 100 in
     volPer_of d = int p /\ (0 <= p <= 100)%Q /\
     (new_volume_of cfg d
      == minVol cfg + (maxVol cfg - minVol cfg) * (p / 100))%Q) /\
  (forall d1 d2 : Q, (d1 <= d2)%Q -> volPer_of d1 <= volPer_of d2) /\
  volPer_of 30 = 0 /\
  volPer_of 250 = 100 /\
  (forall d : Q, (d <= 30)%Q -> volPer_of d = volPer_of 30) /\
  (forall d : Q, (250 <= d)%Q -> volPer_of d = volPer_of 250) /\
  (forall d : Q, (30 <= d <= 250)%Q ->
     (new_volume_of cfg d
      == minVol cfg + (maxVol cfg - minVol cfg) * ((d - 30) / 220))%Q) /\
  (forall d : Q, (30 <= d <= 250)%Q ->
     (inject_Z (volPer_of d) <= 100 * ((d - 30) / 220)
      < inject_Z (volPer_of d) + 1)%Q).
Proof.
  intros Hr. unfold new_volume_of, volPer_of.
  repeat match goal with |- _ /\ _ => split end.
  - intros d1 d2 H. apply interp_30_250_monotone; assumption.
  - reflexivity.
  - reflexivity.
  - intros d H. rewrite interp_30_250_low by exact H. reflexivity.
  - intros d H. rewrite interp_30_250_high by exact H. reflexivity.
  - intros d. cbv zeta. split; [reflexivity|]. split.
    + apply interp_30_250_bounds. discriminate.
    + destruct (Qlt_le_dec 30 d) as [H1|H1];
        [destruct (Qlt_le_dec d 250) as [H2|H2]|].
      * rewrite (interp_30_250_inside d _ _ H1 H2).
        rewrite (interp_30_250_inside d 0 100 H1 H2). field.
      * rewrite !(interp_30_250_high d _ _ H2). field.
      * rewrite !(interp_30_250_low d _ _ H1). field.
  - intros d1 d2 H. apply int_monotone.
    + apply interp_30_250_bounds. discriminate.
    + apply interp_30_250_monotone; [discriminate|exact H].
  - reflexivity.
  - reflexivity.
  - intros d H. rewrite interp_30_250_low by exact H. reflexivity.
  - intros d H. rewrite interp_30_250_high by exact H. reflexivity.
  - intros d H. apply interp_30_250_line. exact H.
  - intros d H.
    pose proof (interp_30_250_line d 0 100 H) as Hline.
    assert (0 <= interp d 30 250 0 100)%Q as Hp
      by (apply interp_30_250_bounds; discriminate).
    rewrite (int_floor _ Hp).
    pose proof (Qfloor_le (interp d 30 250 0 100)) as Hlo.
    pose proof (Qlt_floor (interp d 30 250 0 100)) as Hhi.
    rewrite inject_Z_plus in Hhi.
    change (inject_Z 1) with 1%Q in Hhi.
    split; lra.
Qed.

Lemma volume_mapping_monotone_clamped_witness :
  (minVol cfg3 <= maxVol cfg3)%Q /\
  new_volume_of cfg3 30 = minVol cfg3 /\
  new_volume_of cfg3 250 = maxVol cfg3 /\
  volPer_of 30 = 0 /\ volPer_of 250 = 100 /\
  (new_volume_of cfg3 140 == -32.625)%Q /\
  (inject_Z (volPer_of 140) <= 50 < inject_Z (volPer_of 140) + 1)%Q.
Proof.
  assert (minVol cfg3 <= maxVol cfg3)%Q as H by discriminate.
  pose proof (volume_mapping_monotone_clamped cfg3 H) as T.
  split; [exact H|].
  destruct T as (_ & T30 & T250 & _ & _ & _ & _ & P30 & P250 & _ & _
                 & Tline & Pline).
  assert (30 <= 140 <= 250)%Q as Hd by (split; discriminate).
  split; [exact T30|]. split; [exact T250|].
  split; [exact P30|]. split; [exact P250|]. split.
  - rewrite (Tline 140%Q Hd). reflexivity.
  - destruct (Pline 140%Q Hd) as [Plo Phi].
    assert (100 * ((140 - 30) / 220) == 50)%Q as E by reflexivity.
    rewrite E in Plo, Phi. split; assumption.
Defined.

(* ================================================================= *)
(** ** One hand *)

Lemma len_pos {A : Type} (l : list A) : l <> [] -> 0 < len l.
Proof. destruct l; [congruence|]. intros _. unfold len. cbn. lia. Qed.

Lemma getitem_in_range {A : Type} (l : list A) (i : Z) :
  0 <= i < len l -> exists a, getitem l i = Ok a.
Proof.
  unfold getitem, len. intros Hi.
  destruct (i <? 0) eqn:E; [apply Z.ltb_lt in E; lia|]. rewrite E.
  destruct (nth_error l (Z.to_nat i)) eqn:N; [eauto|].
  apply nth_error_None in N. lia.
Qed.

Lemma next_song_ok (cfg : Config) (now : Q) (st : State) :
  music_files cfg <> [] ->
  exists p,
    next_song cfg now st =
    Ok {| current_song_index :=
            (current_song_index st + 1) mod len (music_files cfg);
          last_volume := last_volume st;
          last_wave_time := now;
          last_gesture_time := last_gesture_time st;
          current_message := "Next Song";
          message_start_time := now;
          mixer := Mixer.play (Mixer.load p (mixer st));
          master_volume := master_volume st |}.
Proof.
  intros Hne. pose proof (len_pos _ Hne) as Hn.
  unfold next_song, next_song_index, mod_.
  destruct (len (music_files cfg) =? 0) eqn:E; [apply Z.eqb_eq in E; lia|].
  cbn [bind].
  destruct (getitem_in_range (music_files cfg)
              ((current_song_index st + 1) mod len (music_files cfg)))
    as [p Hp]; [apply Z.mod_pos_bound; exact Hn|].
  rewrite Hp. cbn [bind]. exists p. reflexivity.
Qed.

Lemma previous_song_ok (cfg : Config) (now : Q) (st : State) :
  music_files cfg <> [] ->
  exists p,
    previous_song cfg now st =
    Ok {| current_song_index :=
            (current_song_index st - 1) mod len (music_files cfg);
          last_volume := last_volume st;
          last_wave_time := now;
          last_gesture_time := last_gesture_time st;
          current_message := "Previous Song";
          message_start_time := now;
          mixer := Mixer.play (Mixer.load p (mixer st));
          master_volume := master_volume st |}.
Proof.
  intros Hne. pose proof (len_pos _ Hne) as Hn.
  unfold previous_song, previous_song_index, mod_.
  destruct (len (music_files cfg) =? 0) eqn:E; [apply Z.eqb_eq in E; lia|].
  cbn [bind].
  destruct (getitem_in_range (music_files cfg)
              ((current_song_index st - 1) mod len (music_files cfg)))
    as [p Hp]; [apply Z.mod_pos_bound; exact Hn|].
  rewrite Hp. cbn [bind]. exists p. reflexivity.
Qed.

(** The decision tree of the discrete section, with the classifier
    verdicts and the two branch results named. *)
Lemma discrete_commands_tree (cfg : Config) (now : Q)
  (h : NormalizedLandmarkList) (st : State) :
  well_formed h -> music_files cfg <> [] ->
  exists wl wr pp st_next st_prev,
    is_wave_left h = Ok wl /\ is_wave_right h = Ok wr /\
    is_play_pause_gesture h = Ok pp /\
    next_song cfg now st = Ok st_next /\
    previous_song cfg now st = Ok st_prev /\
    discrete_commands cfg now h st =
    Ok (if Qgtb (now - last_wave_time st)%Q cooldown_time then
          if wl then (st_next, [NextTrack])
          else if wr then (st_prev, [PreviousTrack])
          else if pp && Qgtb (now - last_gesture_time st)%Q gesture_cooldown
               then (play_pause now st, [PlayPauseToggle])
               else (st, [])
        else (st, [])).
Proof.
  intros Hwf Hne.
  destruct (is_play_pause_gesture_total h Hwf) as [pp Hpp].
  destruct (next_song_ok cfg now st Hne) as [pn Hn].
  destruct (previous_song_ok cfg now st Hne) as [pq Hq].
  eexists _, _, pp, _, _.
  split; [apply is_wave_left_points; exact Hwf|].
  split; [apply is_wave_right_points; exact Hwf|].
  split; [exact Hpp|].
  split; [exact Hn|]. split; [exact Hq|].
  unfold discrete_commands.
  rewrite (is_wave_left_points h Hwf), (is_wave_right_points h Hwf), Hpp, Hn, Hq.
  cbn [bind].
  repeat match goal with |- context [if ?b then _ else _] =>
    destruct b end; reflexivity.
Qed.

(** The volume section never touches the playlist position, the two
    timestamps, the message or the mixer. *)
Lemma volume_control_frame (cfg : Config) (f : Frame)
  (h : NormalizedLandmarkList) (st : State) (vp : Z) :
  well_formed h ->
  exists st' vp',
    volume_control cfg f h st vp = Ok (st', vp') /\
    current_song_index st' = current_song_index st /\
    last_wave_time st' = last_wave_time st /\
    last_gesture_time st' = last_gesture_time st /\
    current_message st' = current_message st /\
    message_start_time st' = message_start_time st /\
    mixer st' = mixer st.
Proof.
  intros Hwf. unfold volume_control.
  destruct (is_volume_control_gesture_total h Hwf) as [vg ->]. cbn [bind].
  destruct vg.
  - destruct (shape f) as [hh ww]. points h Hwf. cbn [bind].
    eexists _, _. split; [reflexivity|]. cbn. repeat split.
  - eexists _, _. split; [reflexivity|]. repeat split.
Qed.

Lemma gate_closed_after_fire (now : Q) :
  Qgtb (now - now)%Q cooldown_time = false.
Proof. apply Qgtb_le. unfold cooldown_time. lra. Qed.

Lemma gesture_gate_closed_after_fire (now : Q) :
  Qgtb (now - now)%Q gesture_cooldown = false.
Proof. apply Qgtb_le. unfold gesture_cooldown. lra. Qed.

Lemma per_hand_tree (cfg : Config) (f : Frame)
  (h : NormalizedLandmarkList) (st : State) (cmds : list command) (vp : Z) :
  well_formed h -> music_files cfg <> [] ->
  exists st1 fired st2 vp',
    discrete_commands cfg (current_time f) h st = Ok (st1, fired) /\
    per_hand cfg f h (st, cmds, vp) = Ok (st2, (cmds ++ fired)%list, vp') /\
    current_song_index st2 = current_song_index st1 /\
    last_wave_time st2 = last_wave_time st1 /\
    last_gesture_time st2 = last_gesture_time st1 /\
    current_message st2 = current_message st1 /\
    mixer st2 = mixer st1.
Proof.
  intros Hwf Hne.
  destruct (discrete_commands_tree cfg (current_time f) h st Hwf Hne)
    as (wl & wr & pp & sn & sp & _ & _ & _ & _ & _ & Hd).
  match type of Hd with _ = Ok ?r => destruct r as [st1 fired] eqn:Er end.
  destruct (volume_control_frame cfg f h st1 vp Hwf)
    as (st2 & vp' & Hv & Hi & Hw & Hg & Hm & _ & Hx).
  exists st1, fired, st2, vp'.
  split; [exact Hd|]. split.
  - unfold per_hand. rewrite Hd. cbn [bind]. rewrite Hv. reflexivity.
  - repeat split; assumption.
Qed.

Section HandLoop.

Variable cfg : Config.
Variable f : Frame.
Hypothesis tracks : music_files cfg <> [].

Lemma for_hands_total (hands : list NormalizedLandmarkList) :
  Forall well_formed hands ->
  forall acc, exists acc', for_hands cfg f hands acc = Ok acc'.
Proof.
  induction 1 as [|h hands Hh _ IH]; intros acc; cbn [for_hands].
  - eauto.
  - destruct acc as [[st cmds] vp].
    destruct (per_hand_tree cfg f h st cmds vp Hh tracks)
      as (st1 & fired & st2 & vp' & _ & -> & _).
    cbn [bind]. apply IH.
Qed.

(** A property of the state and of the commands accepted so far that
    every pass of the loop body keeps holds when the loop is left. *)
Variable P : State -> list command -> Prop.
Hypothesis P_body :
  forall h st cmds vp st' cmds' vp',
    well_formed h -> P st cmds ->
    per_hand cfg f h (st, cmds, vp) = Ok (st', cmds', vp') ->
    P st' cmds'.

Lemma for_hands_invariant (hands : list NormalizedLandmarkList) :
  Forall well_formed hands ->
  forall st cmds vp st' cmds' vp',
    P st cmds ->
    for_hands cfg f hands (st, cmds, vp) = Ok (st', cmds', vp') ->
    P st' cmds'.
Proof.
  induction 1 as [|h hands Hh _ IH]; intros st cmds vp st' cmds' vp' HP;
    cbn [for_hands].
  - intros [= <- <- <-]. exact HP.
  - destruct (per_hand cfg f h (st, cmds, vp)) as [[[s1 c1] v1]|e] eqn:E;
      cbn [bind]; [|discriminate].
    intros Hrest. eapply IH; [|exact Hrest].
    eapply P_body; eassumption.
Qed.

End HandLoop.

(** Once a wave has fired at [now], the wave gate stays shut for the
    rest of the frame; once a toggle has fired, so does the gesture gate.
    Hence the phases of a frame only move forward. *)
Lemma per_hand_phase (cfg : Config) (f : Frame) (h : NormalizedLandmarkList)
  (st : State) (cmds : list command) (vp : Z)
  (st' : State) (cmds' : list command) (vp' : Z) :
  music_files cfg <> [] -> well_formed h ->
  debounce_phase (current_time f) st cmds ->
  per_hand cfg f h (st, cmds, vp) = Ok (st', cmds', vp') ->
  debounce_phase (current_time f) st' cmds'.
Proof.
  intros Hne Hwf Hph Hstep.
  destruct (per_hand_tree cfg f h st cmds vp Hwf Hne)
    as (st1 & fired & st2 & vp2 & Hd & Hp & _ & Hw & Hg & _).
  rewrite Hp in Hstep. injection Hstep as <- <- <-.
  destruct (discrete_commands_tree cfg (current_time f) h st Hwf Hne)
    as (wl & wr & pp & sn & sp & _ & _ & _ & Hn & Hq & Hd').
  destruct (next_song_ok cfg (current_time f) st Hne) as [pn Hn'].
  destruct (previous_song_ok cfg (current_time f) st Hne) as [pq Hq'].
  rewrite Hn in Hn'. injection Hn' as ->.
  rewrite Hq in Hq'. injection Hq' as ->.
  rewrite Hd in Hd'. injection Hd' as Hd'.
  unfold debounce_phase in *. rewrite Hw, Hg.
  destruct Hph as [->|[[-> Hlg]|[Hc Hlw]]].
  - (* nothing accepted yet *)
    destruct (Qgtb (current_time f - last_wave_time st) cooldown_time);
      [destruct wl; [|destruct wr;
         [|destruct (pp && Qgtb (current_time f - last_gesture_time st)
                                gesture_cooldown)]]|];
      injection Hd' as -> ->; cbn; auto 10.
  - (* a toggle was accepted: the gesture gate is shut *)
    rewrite Hlg, gesture_gate_closed_after_fire, andb_false_r in Hd'.
    destruct (Qgtb (current_time f - last_wave_time st) cooldown_time);
      [destruct wl; [|destruct wr]|];
      injection Hd' as -> ->; cbn; auto 10.
  - (* a wave was accepted: the wave gate is shut *)
    rewrite Hlw, gate_closed_after_fire in Hd'.
    injection Hd' as -> ->. rewrite app_nil_r. auto.
Qed.

(** C1, as the code has it: the debounce state is two timestamps, each
    with a cooldown of one second.  [last_wave_time] is shared by both
    wave classes: a hand's NextTrack is accepted exactly when the hand
    waves left and more than [cooldown_time] has passed since the last
    accepted wave of either direction, and PreviousTrack likewise for a
    hand that waves right and not left; neither depends on
    [last_gesture_time].  PlayPauseToggle is accepted only for a hand
    that is no wave and shows the OK sign, and only when more than
    [gesture_cooldown] has passed since the last accepted toggle; it is
    accepted whenever the wave cooldown has passed as well.  An accepted
    wave stamps only [last_wave_time], an accepted toggle only
    [last_gesture_time], and a hand that fires nothing leaves the state
    as it was. *)
Theorem debounce_two_timestamps (cfg : Config) (now : Q)
  (h : NormalizedLandmarkList) (st : State) :
  well_formed h -> music_files cfg <> [] ->
  exists wl wr pp st' fired,
    is_wave_left h = Ok wl /\ is_wave_right h = Ok wr /\
    is_play_pause_gesture h = Ok pp /\
    discrete_commands cfg now h st = Ok (st', fired) /\
    (fired = [NextTrack] <-> wave_gate_open now st /\ wl = true) /\
    (fired = [PreviousTrack] <->
       wave_gate_open now st /\ wl = false /\ wr = true) /\
    (fired = [PlayPauseToggle] ->
       gesture_gate_open now st /\ wl = false /\ wr = false /\ pp = true) /\
    (wave_gate_open now st /\ gesture_gate_open now st /\
     wl = false /\ wr = false /\ pp = true ->
       fired = [PlayPauseToggle]) /\
    (fired = [] \/ fired = [NextTrack] \/ fired = [PreviousTrack] \/
     fired = [PlayPauseToggle]) /\
    (fired = [NextTrack] \/ fired = [PreviousTrack] ->
       last_wave_time st' = now /\
       last_gesture_time st' = last_gesture_time st) /\
    (fired = [PlayPauseToggle] ->
       last_gesture_time st' = now /\
       last_wave_time st' = last_wave_time st) /\
    (fired = [] -> st' = st).
Proof.
  intros Hwf Hne.
  destruct (discrete_commands_tree cfg now h st Hwf Hne)
    as (wl & wr & pp & sn & sp & Hl & Hr & Hp & Hn & Hq & Hd).
  destruct (next_song_ok cfg now st Hne) as [pn Hn'].
  destruct (previous_song_ok cfg now st Hne) as [pq Hq'].
  rewrite Hn in Hn'. injection Hn' as ->.
  rewrite Hq in Hq'. injection Hq' as ->.
  match type of Hd with _ = Ok ?r => destruct r as [st' fired] eqn:Er end.
  exists wl, wr, pp, st', fired.
  do 4 (split; [assumption|]).
  unfold wave_gate_open, gesture_gate_open.
  destruct (Qgtb (now - last_wave_time st) cooldown_time) eqn:G1;
    [apply Qgtb_gt in G1
    |apply Qgtb_le in G1; apply Qle_not_lt in G1];
    (destruct (Qgtb (now - last_gesture_time st) gesture_cooldown) eqn:G2;
     [apply Qgtb_gt in G2
     |apply Qgtb_le in G2; apply Qle_not_lt in G2]);
    destruct wl, wr, pp; cbn in Er; injection Er as <- <-; cbn;
    intuition congruence.
Qed.

Lemma debounce_two_timestamps_witness :
  well_formed hand_ok_sign /\ music_files cfg3 <> [] /\
  exists st' fired,
    discrete_commands cfg3 1000 hand_ok_sign st0 = Ok (st', fired) /\
    (fired = [PlayPauseToggle] -> last_gesture_time st' = 1000%Q).
Proof.
  assert (well_formed hand_ok_sign) as Hwf by reflexivity.
  assert (music_files cfg3 <> []) as Hne by discriminate.
  split; [exact Hwf|]. split; [exact Hne|].
  destruct (debounce_two_timestamps cfg3 1000 hand_ok_sign st0 Hwf Hne)
    as (wl & wr & pp & st' & fired & _ & _ & _ & Hd
        & _ & _ & _ & _ & _ & _ & Hg & _).
  exists st', fired. split; [exact Hd|].
  intros Hf. exact (proj1 (Hg Hf)).
Defined.

(** C1 as stated fails twice on [three_tracks], starting from the
    start-up state (no command accepted yet).  A wave right at t = 1000
    is accepted; at t = 1000.5 an OK sign is dropped although no toggle
    was ever accepted, and so is a wave left although no wave left was
    ever accepted.  Without the wave at t = 1000, the same frames at
    t = 1000.5 are accepted. *)
Lemma wave_cooldown_blocks_other_classes :
  map commands (fst (main_loop cfg3 st0
    [frame_at 1000 [hand_wave_right]; frame_at 1000.5 [hand_ok_sign]]))
  = [[PreviousTrack]; []] /\
  map commands (fst (main_loop cfg3 st0 [frame_at 1000.5 [hand_ok_sign]]))
  = [[PlayPauseToggle]] /\
  map commands (fst (main_loop cfg3 st0
    [frame_at 1000 [hand_wave_right]; frame_at 1000.5 [hand_wave_left]]))
  = [[PreviousTrack]; []] /\
  map commands (fst (main_loop cfg3 st0 [frame_at 1000.5 [hand_wave_left]]))
  = [[NextTrack]].
Proof. repeat split; vm_compute; reflexivity. Qed.

(* ================================================================= *)
(** ** One frame *)

Lemma frame_iteration_ok (cfg : Config) (st : State) (f : Frame) :
  music_files cfg <> [] -> well_formed_frame f ->
  exists st1 vp out,
    for_hands cfg f (multi_hand_landmarks f)
      (st, [], int (interp (last_volume st) (minVol cfg) (maxVol cfg) 0 100))
    = Ok (st1, commands out, vp) /\
    frame_iteration cfg st f = Ok out /\
    current_song_index (state_after out) = current_song_index st1 /\
    last_wave_time (state_after out) = last_wave_time st1 /\
    last_gesture_time (state_after out) = last_gesture_time st1 /\
    mixer (state_after out) = mixer st1.
Proof.
  intros Hne Hwf. unfold frame_iteration.
  destruct (for_hands_total cfg f Hne _ Hwf
              (st, [], int (interp (last_volume st) (minVol cfg) (maxVol cfg)
                              0 100)))
    as [[[st1 cmds] vp] Hf].
  rewrite Hf. cbn [bind].
  destruct (show_message (current_time f) st1) as [st2 msg] eqn:Em.
  eexists st1, vp, _. split; [|split; [reflexivity|]]; cbn.
  - reflexivity.
  - unfold show_message in Em.
    destruct (negb (current_message st1 =? "")%string
              && Qltb (current_time f - message_start_time st1)
                   message_duration);
      injection Em as <- <-; repeat split.
Qed.

(** C2, as the code has it: the only frame-level limit is what the two
    timestamps give.  For every frame of well-formed hands the commands
    accepted, in hand order, are: none, one command, or a
    PlayPauseToggle followed by one wave command.  So at most one wave
    command and at most one toggle are accepted per frame, and nothing is
    accepted after a wave command. *)
Theorem frame_commands_shape (cfg : Config) (st : State) (f : Frame) :
  music_files cfg <> [] -> well_formed_frame f ->
  exists out, frame_iteration cfg st f = Ok out /\ frame_shape (commands out).
Proof.
  intros Hne Hwf.
  destruct (frame_iteration_ok cfg st f Hne Hwf)
    as (st1 & vp & out & Hf & Hout & _).
  exists out. split; [exact Hout|].
  assert (debounce_phase (current_time f) st1 (commands out)) as Hph.
  { eapply (for_hands_invariant cfg f
              (debounce_phase (current_time f))); [|exact Hwf| |exact Hf].
    - intros h s c v s' c' v' Hh HP Hstep.
      eapply per_hand_phase; eassumption.
    - left. reflexivity. }
  unfold debounce_phase in Hph. unfold frame_shape. tauto.
Qed.

Lemma frame_commands_shape_witness :
  music_files cfg3 <> [] /\
  well_formed_frame (frame_at 1000 [hand_ok_sign; hand_wave_left]) /\
  exists out,
    frame_iteration cfg3 st0 (frame_at 1000 [hand_ok_sign; hand_wave_left])
    = Ok out /\ frame_shape (commands out).
Proof.
  assert (music_files cfg3 <> []) as Hne by discriminate.
  assert (well_formed_frame (frame_at 1000 [hand_ok_sign; hand_wave_left]))
    as Hwf by (repeat constructor).
  split; [exact Hne|]. split; [exact Hwf|].
  exact (frame_commands_shape cfg3 st0 _ Hne Hwf).
Defined.

(** C2 as stated fails on a frame with two hands, an OK sign first and a
    wave left second, in the start-up state: both the toggle and
    NextTrack are accepted in that one frame. *)
Lemma two_commands_in_one_frame :
  map commands (fst (main_loop cfg3 st0
    [frame_at 1000 [hand_ok_sign; hand_wave_left]]))
  = [[PlayPauseToggle; NextTrack]].
Proof. vm_compute. reflexivity. Qed.

(* ================================================================= *)
(** ** The dispatcher *)

(** What a successful pass through the discrete section can have done. *)
Lemma discrete_commands_inv (cfg : Config) (now : Q)
  (h : NormalizedLandmarkList) (st st' : State) (fired : list command) :
  discrete_commands cfg now h st = Ok (st', fired) ->
  (fired = [] /\ st' = st) \/
  (fired = [NextTrack] /\ next_song cfg now st = Ok st') \/
  (fired = [PreviousTrack] /\ previous_song cfg now st = Ok st') \/
  (fired = [PlayPauseToggle] /\ st' = play_pause now st).
Proof.
  unfold discrete_commands.
  destruct (Qgtb (now - last_wave_time st) cooldown_time);
    [|intros [= <- <-]; auto].
  destruct (is_wave_left h) as [[|]|e]; cbn [bind]; [| |discriminate].
  - destruct (next_song cfg now st) as [sn|e]; cbn [bind]; [|discriminate].
    intros [= <- <-]. auto.
  - destruct (is_wave_right h) as [[|]|e]; cbn [bind]; [| |discriminate].
    + destruct (previous_song cfg now st) as [sp|e]; cbn [bind];
        [|discriminate].
      intros [= <- <-]. auto.
    + destruct (is_play_pause_gesture h) as [pp|e]; cbn [bind];
        [|discriminate].
      destruct (pp && Qgtb (now - last_gesture_time st) gesture_cooldown);
        intros [= <- <-]; auto 6.
Qed.

Lemma next_index_wraps (n i : Z) :
  0 <= i < n ->
  (i = n - 1 -> (i + 1) mod n = 0) /\ (i <> n - 1 -> (i + 1) mod n = i + 1).
Proof.
  intros Hi. split; intros H.
  - subst i. replace (n - 1 + 1) with n by lia. apply Z_mod_same_full.
  - apply Z.mod_small. lia.
Qed.

Lemma previous_index_wraps (n i : Z) :
  0 <= i < n ->
  (i = 0 -> (i - 1) mod n = n - 1) /\ (i <> 0 -> (i - 1) mod n = i - 1).
Proof.
  intros Hi. split; intros H.
  - subst i. symmetry. apply (Z.mod_unique_pos (0 - 1) n (-1) (n - 1)); lia.
  - apply Z.mod_small. lia.
Qed.



(** C6: an accepted PlayPauseToggle acts by the engine's busy flag
    alone: busy, it pauses and the message is "Paused"; idle, it
    unpauses and the message is "Playing".  When the flag has flipped by
    the time the next toggle is accepted, that one shows the other
    message. *)
Theorem play_pause_by_busy (cfg : Config) (now : Q)
  (h : NormalizedLandmarkList) (st st' : State) :
  discrete_commands cfg now h st = Ok (st', [PlayPauseToggle]) ->
  (Mixer.get_busy (mixer st) = true ->
     mixer st' = Mixer.pause (mixer st) /\
     current_message st' = "Paused"%string) /\
  (Mixer.get_busy (mixer st) = false ->
     mixer st' = Mixer.unpause (mixer st) /\
     current_message st' = "Playing"%string) /\
  (forall cfg2 now2 h2 s2 s3,
     Mixer.get_busy (mixer s2) = negb (Mixer.get_busy (mixer st)) ->
     discrete_commands cfg2 now2 h2 s2 = Ok (s3, [PlayPauseToggle]) ->
     (current_message st' = "Paused"%string /\
      current_message s3 = "Playing"%string) \/
     (current_message st' = "Playing"%string /\
      current_message s3 = "Paused"%string)).
Proof.
  intros Hd. apply discrete_commands_inv in Hd.
  destruct Hd as [[Hf _]|[[Hf _]|[[Hf _]|[_ ->]]]]; try discriminate Hf.
  unfold play_pause. cbn [mixer current_message].
  split; [intros ->; auto|]. split; [intros ->; auto|].
  intros cfg2 now2 h2 s2 s3 Hb Hd2. apply discrete_commands_inv in Hd2.
  destruct Hd2 as [[Hf _]|[[Hf _]|[[Hf _]|[_ ->]]]]; try discriminate Hf.
  unfold play_pause. cbn [mixer current_message]. rewrite Hb.
  destruct (Mixer.get_busy (mixer st)); cbn [negb]; auto.
Qed.

Lemma play_pause_by_busy_witness :
  exists st' s3,
    discrete_commands cfg3 1000 hand_ok_sign st_playing
    = Ok (st', [PlayPauseToggle]) /\
    Mixer.get_busy (mixer st')
    = negb (Mixer.get_busy (mixer st_playing)) /\
    discrete_commands cfg3 1002 hand_ok_sign st'
    = Ok (s3, [PlayPauseToggle]) /\
    current_message st' = "Paused"%string /\
    current_message s3 = "Playing"%string.
Proof.
  eexists. eexists.
  split; [reflexivity|]. split; [reflexivity|]. split; [reflexivity|].
  match goal with
  | |- current_message ?a = _ /\ current_message ?b = _ =>
      pose proof (play_pause_by_busy cfg3 1000 hand_ok_sign st_playing a
                    eq_refl) as (Tbusy & _ & Talt);
      specialize (Talt cfg3 1002%Q hand_ok_sign a b eq_refl eq_refl)
  end.
  split; [exact (proj2 (Tbusy eq_refl))|].
  destruct Talt as [[_ E]|[E _]]; [exact E|discriminate E].
Defined.

(* ================================================================= *)
(** ** Start-up and the loop *)

Lemma insort_length (s : string) (l : list string) :
  List.length (insort s l) = S (List.length l).
Proof.
  induction l as [|t l IH]; cbn; [reflexivity|].
  destruct (String.ltb s t); cbn; [reflexivity|]. rewrite IH. reflexivity.
Qed.

Lemma sort_length (l : list string) :
  List.length (sort l) = List.length l.
Proof.
  unfold sort.
  enough (forall acc,
            List.length (fold_left (fun a s => insort s a) l acc)
            = (List.length l + List.length acc)%nat) as H
    by (rewrite H; cbn; lia).
  induction l as [|s l IH]; intros acc; cbn; [reflexivity|].
  rewrite IH, insort_length. lia.
Qed.

(** C9: when no directory entry ends in ".mp3", the first load indexes
    an empty list: the script stops with [IndexError] at start-up and no
    iteration of the frame loop runs, whatever the camera would have
    delivered. *)
Theorem empty_playlist_aborts (listing : list string) (volRange : Q * Q)
  (level : Q) (frames : list Frame) :
  filter (fun f => endswith f ".mp3") listing = [] ->
  startup listing volRange level = Raise IndexError /\
  main listing volRange level frames = ([], Raise IndexError).
Proof.
  intros H. unfold main, startup. rewrite H. cbn. split; reflexivity.
Qed.

Lemma empty_playlist_aborts_witness :
  filter (fun f => endswith f ".mp3") ["notes.txt"; "cover.png"]%string = [] /\
  main ["notes.txt"; "cover.png"]%string (-65.25, 0)%Q (-20)%Q
    [frame_at 1000 [hand_wave_left]]
  = ([], Raise IndexError).
Proof.
  split; [reflexivity|].
  exact (proj2 (empty_playlist_aborts ["notes.txt"; "cover.png"]%string
                  (-65.25, 0)%Q (-20)%Q [frame_at 1000 [hand_wave_left]]
                  eq_refl)).
Defined.

Lemma per_hand_index_valid (cfg : Config) (f : Frame)
  (h : NormalizedLandmarkList) (st : State) (cmds : list command) (vp : Z)
  (st' : State) (cmds' : list command) (vp' : Z) :
  music_files cfg <> [] -> well_formed h ->
  index_valid cfg st ->
  per_hand cfg f h (st, cmds, vp) = Ok (st', cmds', vp') ->
  index_valid cfg st'.
Proof.
  intros Hne Hwf Hv Hstep.
  destruct (per_hand_tree cfg f h st cmds vp Hwf Hne)
    as (st1 & fired & st2 & vp2 & Hd & Hp & Hi & _).
  rewrite Hp in Hstep. injection Hstep as <- _ _.
  unfold index_valid in *. rewrite Hi.
  pose proof (len_pos _ Hne) as Hn.
  apply discrete_commands_inv in Hd.
  destruct Hd as [[_ ->]|[[_ Hs]|[[_ Hs]|[_ ->]]]].
  - exact Hv.
  - destruct (next_song_ok cfg (current_time f) st Hne) as [p Hq].
    rewrite Hq in Hs. injection Hs as <-. cbn.
    apply Z.mod_pos_bound. exact Hn.
  - destruct (previous_song_ok cfg (current_time f) st Hne) as [p Hq].
    rewrite Hq in Hs. injection Hs as <-. cbn.
    apply Z.mod_pos_bound. exact Hn.
  - exact Hv.
Qed.

Lemma frame_iteration_index_valid (cfg : Config) (st : State) (f : Frame) :
  music_files cfg <> [] -> well_formed_frame f -> index_valid cfg st ->
  exists out,
    frame_iteration cfg st f = Ok out /\ index_valid cfg (state_after out).
Proof.
  intros Hne Hwf Hv.
  destruct (frame_iteration_ok cfg st f Hne Hwf)
    as (st1 & vp & out & Hf & Hout & Hi & _).
  exists out. split; [exact Hout|].
  unfold index_valid. rewrite Hi.
  eapply (for_hands_invariant cfg f (fun s _ => index_valid cfg s));
    [|exact Hwf|exact Hv|exact Hf].
  intros h s c v s' c' v' Hh HP Hstep.
  eapply per_hand_index_valid; eassumption.
Qed.

Lemma main_loop_index_valid (cfg : Config) (frames : list Frame) :
  music_files cfg <> [] -> Forall well_formed_frame frames ->
  forall st, index_valid cfg st ->
  exists outs final,
    main_loop cfg st frames = (outs, Ok final) /\
    Forall (fun out => index_valid cfg (state_after out)) outs /\
    index_valid cfg final.
Proof.
  intros Hne. induction 1 as [|f frames Hf _ IH]; intros st Hv;
    cbn [main_loop].
  - exists [], st. auto.
  - destruct (success f); cbn [negb]; [|exists [], st; auto].
    destruct (frame_iteration_index_valid cfg st f Hne Hf Hv)
      as (out & -> & Hv').
    destruct (key_q f).
    + exists [out], (state_after out). auto.
    + destruct (IH (state_after out) Hv') as (outs & final & -> & Ho & Hfin).
      exists (out :: outs), final. auto.
Qed.

(** C10: with at least one ".mp3" entry in the directory, start-up
    succeeds with [current_song_index = 0], and on every run of frames
    with well-formed hands the loop raises nothing and the index is in
    [[0, len(music_files) - 1]] after each iteration and when the loop is
    left. *)
Theorem song_index_stays_in_range (listing : list string) (volRange : Q * Q)
  (level : Q) (frames : list Frame) :
  filter (fun f => endswith f ".mp3") listing <> [] ->
  Forall well_formed_frame frames ->
  exists cfg st outs final,
    startup listing volRange level = Ok (cfg, st) /\
    current_song_index st = 0 /\
    index_valid cfg st /\
    main listing volRange level frames = (outs, Ok final) /\
    Forall (fun out => index_valid cfg (state_after out)) outs /\
    index_valid cfg final.
Proof.
  intros Hne Hwf. unfold main, startup.
  set (files := sort (map (path_join songs_folder)
                        (filter (fun f => endswith f ".mp3") listing))).
  assert (files <> []) as Hfiles.
  { intros E. apply (f_equal (@List.length string)) in E.
    unfold files in E. rewrite sort_length, length_map in E.
    destruct (filter _ listing); [congruence|discriminate]. }
  destruct (getitem_in_range files 0) as [p Hp].
  { pose proof (len_pos _ Hfiles). lia. }
  rewrite Hp. cbn [bind].
  match goal with
  | |- exists cfg st outs final, Ok (?c, ?s) = _ /\ _ =>
      assert (index_valid c s) as Hv
        by (unfold index_valid; cbn; pose proof (len_pos _ Hfiles); lia);
      destruct (main_loop_index_valid c frames Hfiles Hwf s Hv)
        as (outs & final & Hm & Ho & Hfin);
      exists c, s, outs, final
  end.
  split; [reflexivity|]. split; [reflexivity|]. split; [exact Hv|].
  split; [exact Hm|]. split; assumption.
Qed.

Lemma song_index_stays_in_range_witness :
  filter (fun f => endswith f ".mp3") three_tracks <> [] /\
  Forall well_formed_frame
    [frame_at 1000 [hand_wave_right]; frame_at 1002 [hand_wave_right]] /\
  exists cfg st outs final,
    main three_tracks (-65.25, 0)%Q (-20)%Q
      [frame_at 1000 [hand_wave_right]; frame_at 1002 [hand_wave_right]]
    = (outs, Ok final) /\
    startup three_tracks (-65.25, 0)%Q (-20)%Q = Ok (cfg, st) /\
    index_valid cfg final.
Proof.
  assert (filter (fun f => endswith f ".mp3") three_tracks <> [])
    as Hne by discriminate.
  assert (Forall well_formed_frame
            [frame_at 1000 [hand_wave_right]; frame_at 1002 [hand_wave_right]])
    as Hwf by (repeat constructor).
  split; [exact Hne|]. split; [exact Hwf|].
  destruct (song_index_stays_in_range three_tracks (-65.25, 0)%Q (-20)%Q
              _ Hne Hwf)
    as (cfg & st & outs & final & Hs & _ & _ & Hm & _ & Hfin).
  exists cfg, st, outs, final. auto.
Defined.

(* ================================================================= *)
(** ** Debounce across frames *)

Lemma per_hand_gate_shut (cfg : Config) (f : Frame)
  (h : NormalizedLandmarkList) (st : State) (cmds : list command) (vp : Z)
  (st' : State) (cmds' : list command) (vp' : Z) :
  music_files cfg <> [] -> well_formed h ->
  Qgtb (current_time f - last_wave_time st)%Q cooldown_time = false ->
  per_hand cfg f h (st, cmds, vp) = Ok (st', cmds', vp') ->
  cmds' = cmds /\ last_wave_time st' = last_wave_time st.
Proof.
  intros Hne Hwf Hshut Hstep.
  destruct (per_hand_tree cfg f h st cmds vp Hwf Hne)
    as (st1 & fired & st2 & vp2 & Hd & Hp & _ & Hw & _).
  rewrite Hp in Hstep. injection Hstep as <- <- _.
  unfold discrete_commands in Hd. rewrite Hshut in Hd.
  injection Hd as <- <-. rewrite app_nil_r. auto.
Qed.

Lemma frame_gate_shut (cfg : Config) (st : State) (f : Frame) :
  music_files cfg <> [] -> well_formed_frame f ->
  ~ wave_gate_open (current_time f) st ->
  exists out,
    frame_iteration cfg st f = Ok out /\ commands out = [] /\
    last_wave_time (state_after out) = last_wave_time st.
Proof.
  intros Hne Hwf Hshut.
  destruct (frame_iteration_ok cfg st f Hne Hwf)
    as (st1 & vp & out & Hf & Hout & _ & Hw & _).
  exists out. split; [exact Hout|]. rewrite Hw.
  eapply (for_hands_invariant cfg f
            (fun s c => c = [] /\ last_wave_time s = last_wave_time st));
    [|exact Hwf| |exact Hf]; [|auto].
  intros h s c v s' c' v' Hh [-> HP] Hstep.
  destruct (per_hand_gate_shut cfg f h s [] v s' c' v' Hne Hh) as [-> Hw'];
    [|exact Hstep|rewrite Hw'; auto].
  rewrite HP. apply Qgtb_le. apply Qnot_lt_le. exact Hshut.
Qed.

Lemma frame_wave_left_fires (cfg : Config) (st : State) (f : Frame)
  (h : NormalizedLandmarkList) (rest : list NormalizedLandmarkList) :
  music_files cfg <> [] -> well_formed_frame f ->
  multi_hand_landmarks f = h :: rest ->
  is_wave_left h = Ok true ->
  wave_gate_open (current_time f) st ->
  exists out,
    frame_iteration cfg st f = Ok out /\ commands out = [NextTrack] /\
    last_wave_time (state_after out) = current_time f.
Proof.
  intros Hne Hwf Hhands Hleft Hopen.
  destruct (frame_iteration_ok cfg st f Hne Hwf)
    as (st1 & vp & out & Hf & Hout & _ & Hw & _).
  exists out. split; [exact Hout|]. rewrite Hw.
  unfold well_formed_frame in Hwf. rewrite Hhands in Hf, Hwf.
  inversion Hwf as [|h' r' Hh Hrest]; subst h' r'.
  cbn [for_hands] in Hf.
  match type of Hf with
  | context [per_hand cfg f h (st, [], ?v)] =>
      destruct (per_hand_tree cfg f h st [] v Hh Hne)
        as (s1 & fired & s2 & v2 & Hd & Hp & _ & Hw2 & _)
  end.
  rewrite Hp in Hf. cbn [bind app] in Hf.
  assert (fired = [NextTrack] /\ last_wave_time s1 = current_time f)
    as [-> Hs1].
  { destruct (next_song_ok cfg (current_time f) st Hne) as [p Hn].
    unfold discrete_commands in Hd.
    apply Qgtb_gt in Hopen. rewrite Hopen, Hleft in Hd. cbn [bind] in Hd.
    rewrite Hn in Hd. cbn [bind] in Hd. injection Hd as <- <-. auto. }
  eapply (for_hands_invariant cfg f
            (fun s c => c = [NextTrack] /\ last_wave_time s = current_time f));
    [|exact Hrest| |exact Hf]; [|split; [reflexivity|congruence]].
  intros h0 s c v s' c' v' Hh0 [-> HP] Hstep.
  destruct (per_hand_gate_shut cfg f h0 s [NextTrack] v s' c' v' Hne Hh0)
    as [-> Hw']; [|exact Hstep|rewrite Hw'; auto].
  rewrite HP. apply gate_closed_after_fire.
Qed.

(** C4: from a state whose wave gate is open at time t, two frames whose
    first hand waves left, stamped t and t + 0.5, produce exactly one
    NextTrack; the same two frames stamped t and t + 1.5 produce two. *)
Theorem wave_left_debounce (cfg : Config) (st : State) (t : Q)
  (f1 f2 : Frame) (h1 h2 : NormalizedLandmarkList)
  (r1 r2 : list NormalizedLandmarkList) :
  music_files cfg <> [] ->
  well_formed_frame f1 -> well_formed_frame f2 ->
  success f1 = true -> key_q f1 = false -> success f2 = true ->
  multi_hand_landmarks f1 = h1 :: r1 -> is_wave_left h1 = Ok true ->
  multi_hand_landmarks f2 = h2 :: r2 -> is_wave_left h2 = Ok true ->
  wave_gate_open t st ->
  accepted NextTrack
    (fst (main_loop cfg st [at_time t f1; at_time (t + 0.5) f2])) = 1%nat /\
  accepted NextTrack
    (fst (main_loop cfg st [at_time t f1; at_time (t + 1.5) f2])) = 2%nat.
Proof.
  intros Hne Hwf1 Hwf2 Hs1 Hq1 Hs2 Hh1 Hl1 Hh2 Hl2 Hopen.
  destruct (frame_wave_left_fires cfg st (at_time t f1) h1 r1 Hne Hwf1 Hh1 Hl1
              Hopen) as (out1 & Ho1 & Hc1 & Hw1).
  cbn [current_time at_time] in Hw1.
  cbn [main_loop at_time success key_q]. rewrite Hs1, Hq1, Hs2. cbn [negb].
  fold (at_time t f1). rewrite Ho1. split.
  - fold (at_time (t + 0.5) f2).
    destruct (frame_gate_shut cfg (state_after out1) (at_time (t + 0.5) f2)
                Hne Hwf2) as (out2 & -> & Hc2 & _).
    { unfold wave_gate_open. rewrite Hw1. cbn [current_time at_time].
      unfold cooldown_time. lra. }
    destruct (key_q f2); unfold accepted; cbn [fst map List.concat];
      rewrite Hc1, Hc2; reflexivity.
  - fold (at_time (t + 1.5) f2).
    destruct (frame_wave_left_fires cfg (state_after out1)
                (at_time (t + 1.5) f2) h2 r2 Hne Hwf2 Hh2 Hl2)
      as (out2 & -> & Hc2 & _).
    { unfold wave_gate_open. rewrite Hw1. cbn [current_time at_time].
      unfold cooldown_time. lra. }
    destruct (key_q f2); unfold accepted; cbn [fst map List.concat];
      rewrite Hc1, Hc2; reflexivity.
Qed.

Lemma wave_left_debounce_witness :
  wave_gate_open 1000 st0 /\
  accepted NextTrack
    (fst (main_loop cfg3 st0
            [at_time 1000 (frame_at 0 [hand_wave_left]);
             at_time (1000 + 0.5) (frame_at 0 [hand_wave_left])])) = 1%nat /\
  accepted NextTrack
    (fst (main_loop cfg3 st0
            [at_time 1000 (frame_at 0 [hand_wave_left]);
             at_time (1000 + 1.5) (frame_at 0 [hand_wave_left])])) = 2%nat.
Proof.
  assert (wave_gate_open 1000 st0) as Hopen by reflexivity.
  split; [exact Hopen|].
  apply (wave_left_debounce cfg3 st0 1000
           (frame_at 0 [hand_wave_left]) (frame_at 0 [hand_wave_left])
           hand_wave_left hand_wave_left [] []).
  - discriminate.
  - repeat constructor.
  - repeat constructor.
  - reflexivity.
  - reflexivity.
  - reflexivity.
  - reflexivity.
  - reflexivity.
  - reflexivity.
  - reflexivity.
  - exact Hopen.
Defined.

(* ================================================================= *)
(** ** A sample session *)

(** Three tracks, index 0.  A wave left at t = 1000 moves to track 1; the
    same wave half a second later is dropped; at t = 1001.2 it moves to
    track 2.  The message is shown while it is less than a second old. *)
Example three_waves_session :
  map (fun out => (commands out, current_song_index (state_after out),
                   shown_message out))
    (fst (main_loop cfg3 st0
            [frame_at 1000 [hand_wave_left];
             frame_at 1000.5 [hand_wave_left];
             frame_at 1001.2 [hand_wave_left]]))
  = [([NextTrack], 1, "Next Song"%string);
     ([], 1, "Next Song"%string);
     ([NextTrack], 2, "Next Song"%string)].
Proof. vm_compute. reflexivity. Qed.

(** A pinch of 64 by 96 pixels (about 115 px apart) sets the level to
    38 percent of the range. *)
Example pinch_sets_volume :
  map volPer
    (fst (main_loop cfg3 st0
            [frame_at 1000 [hand_pinch (0.5, 0.5)%Q (0.6, 0.3)%Q]]))
  = [38].
Proof. vm_compute. reflexivity. Qed.

(* ================================================================= *)
(** ** More on the classifiers *)

Lemma landmark_at_cases (h : NormalizedLandmarkList) (i : nat) :
  (landmark_at h i = Ok (point h i) /\ (i < List.length (landmark h))%nat) \/
  (landmark_at h i = Raise IndexError /\ (List.length (landmark h) <= i)%nat).
Proof.
  destruct (Nat.lt_ge_cases i (List.length (landmark h))) as [Hi|Hi].
  - left. split; [apply landmark_at_point|]; exact Hi.
  - right. split; [|exact Hi]. unfold landmark_at.
    apply nth_error_None in Hi. rewrite Hi. reflexivity.
Qed.

(** Walks through the lookups of a classifier: each one either succeeds,
    and bounds the length from below, or raises [IndexError]. *)
Ltac lookups h :=
  repeat match goal with
    | |- context [landmark_at h ?i] =>
        let L := fresh "L" in
        destruct (landmark_at_cases h i) as [[-> L]|[-> L]]; cbn [bind]
    end.

(** The classifiers index up to landmark 20: on a hand with fewer than
    21 points each of the four raises [IndexError], and on any hand with
    at least 21 points each returns a verdict. *)
Theorem classifiers_need_21_points (h : NormalizedLandmarkList) :
  ((List.length (landmark h) < 21)%nat ->
   is_wave_left h = Raise IndexError /\
   is_wave_right h = Raise IndexError /\
   is_volume_control_gesture h = Raise IndexError /\
   is_play_pause_gesture h = Raise IndexError) /\
  ((21 <= List.length (landmark h))%nat ->
   exists wl wr vg pp,
     is_wave_left h = Ok wl /\ is_wave_right h = Ok wr /\
     is_volume_control_gesture h = Ok vg /\
     is_play_pause_gesture h = Ok pp).
Proof.
  split; intros Hlen.
  - unfold is_wave_left, is_wave_right, is_volume_control_gesture,
      is_play_pause_gesture. cbn [comprehension].
    repeat split; lookups h; try reflexivity; lia.
  - unfold is_wave_left, is_wave_right, is_volume_control_gesture,
      is_play_pause_gesture. cbn [comprehension].
    rewrite !landmark_at_point by lia. cbn [bind].
    eexists _, _, _, _. repeat split.
Qed.

Lemma classifiers_need_21_points_witness :
  is_wave_left {| landmark := [Landmark.mk 0.5 0.5] |} = Raise IndexError /\
  exists pp, is_play_pause_gesture hand_ok_sign = Ok pp.
Proof.
  split.
  - apply (proj1 (classifiers_need_21_points
                    {| landmark := [Landmark.mk 0.5 0.5] |})).
    cbn. lia.
  - destruct (proj2 (classifiers_need_21_points hand_ok_sign))
      as (wl & wr & vg & pp & _ & _ & _ & Hp).
    + cbn. lia.
    + exists pp. exact Hp.
Defined.

(** [is_wave_right] mirrors [is_wave_left]: on a hand of 21 points it
    returns true when every fingertip has x strictly above
    wrist.x + 0.1, and false as soon as one fingertip has x at or below
    wrist.x + 0.1. *)
Theorem is_wave_right_strict_margin (h : NormalizedLandmarkList) :
  well_formed h ->
  ((forall i, In i finger_tip_ids ->
      (Landmark.x (point h 0) + 0.1 < Landmark.x (point h i))%Q) ->
   is_wave_right h = Ok true) /\
  (forall i, In i finger_tip_ids ->
      (Landmark.x (point h i) <= Landmark.x (point h 0) + 0.1)%Q ->
      is_wave_right h = Ok false).
Proof.
  intros H. rewrite (is_wave_right_points h H). split.
  - intros Hall. f_equal. apply forallb_forall.
    intros i Hi. apply Qgtb_gt. apply Hall. exact Hi.
  - intros i Hi Hle. f_equal.
    destruct (forallb _ finger_tip_ids) eqn:E; [|reflexivity].
    rewrite forallb_forall in E. specialize (E i Hi).
    apply Qgtb_gt in E. apply Qle_not_lt in Hle. contradiction.
Qed.

Lemma is_wave_right_strict_margin_witness :
  well_formed hand_wave_right /\
  is_wave_right hand_wave_right = Ok true /\
  is_wave_right hand_on_margin = Ok false.
Proof.
  split; [reflexivity|]. split.
  - apply (proj1 (is_wave_right_strict_margin hand_wave_right eq_refl)).
    intros i Hi. simpl in Hi.
    repeat (destruct Hi as [<-|Hi]; [reflexivity|]). destruct Hi.
  - apply (proj2 (is_wave_right_strict_margin hand_on_margin eq_refl) 4%nat).
    + simpl. auto.
    + discriminate.
Defined.

(** No hand waves left and right at once: the thumb tip cannot be both
    more than 0.1 left and more than 0.1 right of the wrist.  So the
    order in which the loop tests the two waves never decides between
    them. *)
Theorem wave_left_and_right_exclusive (h : NormalizedLandmarkList) :
  ~ (is_wave_left h = Ok true /\ is_wave_right h = Ok true).
Proof.
  unfold is_wave_left, is_wave_right. cbn [comprehension].
  intros [Hl Hr].
  repeat match type of Hl with
         | context [landmark_at h ?i] =>
             destruct (landmark_at h i) eqn:?; cbn [bind] in Hl, Hr;
             [|discriminate Hl]
         end.
  injection Hl as Hl. injection Hr as Hr.
  cbn [forallb] in Hl, Hr.
  apply andb_true_iff in Hl. destruct Hl as [Hl _].
  apply andb_true_iff in Hr. destruct Hr as [Hr _].
  apply Qltb_lt in Hl. apply Qgtb_gt in Hr. lra.
Qed.

(** The rounded root never exceeds the true one. *)
Lemma sqrt_down_nonneg (q : Q) : (0 <= sqrt_down q)%Q.
Proof.
  unfold sqrt_down. destruct (Qnum q <=? 0); [discriminate|].
  unfold Qle. cbn [Qnum Qden]. rewrite Z.mul_0_l, Z.mul_1_r.
  apply Z.sqrt_nonneg.
Qed.

Lemma sqrt_down_square_le (q : Q) :
  (0 <= q)%Q -> (sqrt_down q * sqrt_down q <= q)%Q.
Proof.
  intros Hq. unfold sqrt_down.
  destruct (Qnum q <=? 0) eqn:E.
  - exact Hq.
  - apply Z.leb_gt in E. destruct q as [n d]. cbn [Qnum Qden] in *.
    set (k := (2 ^ 64)%positive).
    change (2 ^ 128) with (Z.pos k * Z.pos k).
    set (s := Z.sqrt (n * Z.pos d * (Z.pos k * Z.pos k))).
    assert (s * s <= n * Z.pos d * (Z.pos k * Z.pos k)) as Hs.
    { apply Z.sqrt_spec. apply Z.mul_nonneg_nonneg; [|lia].
      apply Z.mul_nonneg_nonneg; lia. }
    unfold Qle, Qmult. cbn [Qnum Qden].
    rewrite !Pos2Z.inj_mul.
    assert (0 < Z.pos d) as Hd by lia.
    nia.
Qed.

Lemma hypot_below (a b c : Q) :
  (0 < c)%Q -> (a * a + b * b < c * c)%Q -> (hypot a b < c)%Q.
Proof.
  intros Hc Hlt. unfold hypot.
  set (q := (a * a + b * b)%Q) in *.
  assert (0 <= q)%Q as Hq by (unfold q; nra).
  pose proof (sqrt_down_nonneg q) as H0.
  pose proof (sqrt_down_square_le q Hq) as H1.
  apply Qnot_le_lt. intros Hge.
  assert (c * c <= sqrt_down q * sqrt_down q)%Q by nra.
  lra.
Qed.

(** [is_play_pause_gesture] on a hand of 21 points: thumb tip (4) and
    index tip (8) less than 0.05 apart (by squared distance) with the
    middle, ring and pinky tips above their joints is an OK sign; a hand
    with one of those three tips level with or below its joint is not,
    however close thumb and index are. *)
Theorem is_play_pause_gesture_touch (h : NormalizedLandmarkList) :
  well_formed h ->
  let dx := (Landmark.x (point h 4) - Landmark.x (point h 8))%Q in
  let dy := (Landmark.y (point h 4) - Landmark.y (point h 8))%Q in
  ((dx * dx + dy * dy < 0.0025)%Q ->
   (Landmark.y (point h 12) < Landmark.y (point h 10))%Q ->
   (Landmark.y (point h 16) < Landmark.y (point h 14))%Q ->
   (Landmark.y (point h 20) < Landmark.y (point h 18))%Q ->
   is_play_pause_gesture h = Ok true) /\
  ((Landmark.y (point h 10) <= Landmark.y (point h 12))%Q \/
   (Landmark.y (point h 14) <= Landmark.y (point h 16))%Q \/
   (Landmark.y (point h 18) <= Landmark.y (point h 20))%Q ->
   is_play_pause_gesture h = Ok false).
Proof.
  intros H. cbv zeta. unfold is_play_pause_gesture. points h H.
  cbn [bind]. split.
  - intros Hd H12 H16 H20.
    apply Qltb_lt in H12, H16, H20. rewrite H12, H16, H20.
    assert (Qltb (hypot (Landmark.x (point h 4) - Landmark.x (point h 8))
                        (Landmark.y (point h 4) - Landmark.y (point h 8)))
                 0.05 = true) as ->; [|reflexivity].
    apply Qltb_lt. apply hypot_below; [reflexivity|].
    setoid_replace (0.05 * 0.05)%Q with 0.0025%Q by reflexivity.
    exact Hd.
  - intros [Hdown|[Hdown|Hdown]]; apply Qltb_ge in Hdown; rewrite Hdown;
      rewrite ?andb_false_r; reflexivity.
Qed.

Lemma is_play_pause_gesture_touch_witness :
  well_formed hand_ok_sign /\
  is_play_pause_gesture hand_ok_sign = Ok true /\
  is_play_pause_gesture hand_wave_left = Ok false.
Proof.
  split; [reflexivity|]. split.
  - apply (proj1 (is_play_pause_gesture_touch hand_ok_sign eq_refl));
      reflexivity.
  - apply (proj2 (is_play_pause_gesture_touch hand_wave_left eq_refl)).
    left. discriminate.
Defined.

(* ================================================================= *)
(** ** Loop invariants in general *)

Lemma volume_control_cases (cfg : Config) (f : Frame)
  (h : NormalizedLandmarkList) (st : State) (vp : Z) :
  well_formed h ->
  exists st' vp',
    volume_control cfg f h st vp = Ok (st', vp') /\
    current_song_index st' = current_song_index st /\
    last_wave_time st' = last_wave_time st /\
    last_gesture_time st' = last_gesture_time st /\
    current_message st' = current_message st /\
    message_start_time st' = message_start_time st /\
    mixer st' = mixer st /\
    ((is_volume_control_gesture h = Ok false /\ st' = st /\ vp' = vp) \/
     (is_volume_control_gesture h = Ok true /\
      exists d, last_volume st' = new_volume_of cfg d /\
                master_volume st' = new_volume_of cfg d /\
                vp' = volPer_of d)).
Proof.
  intros Hwf. unfold volume_control.
  destruct (is_volume_control_gesture_total h Hwf) as [vg ->]. cbn [bind].
  destruct vg.
  - destruct (shape f) as [hh ww]. points h Hwf. cbn [bind].
    eexists _, _. split; [reflexivity|]. cbn.
    do 6 (split; [reflexivity|]). right. split; [reflexivity|].
    eexists. repeat split.
  - exists st, vp. split; [reflexivity|].
    do 6 (split; [reflexivity|]). left. auto.
Qed.

Lemma per_hand_steps (cfg : Config) (f : Frame)
  (h : NormalizedLandmarkList) (st : State) (cmds : list command) (vp : Z) :
  well_formed h -> music_files cfg <> [] ->
  exists st1 fired st2 vp',
    discrete_commands cfg (current_time f) h st = Ok (st1, fired) /\
    volume_control cfg f h st1 vp = Ok (st2, vp') /\
    per_hand cfg f h (st, cmds, vp) = Ok (st2, (cmds ++ fired)%list, vp').
Proof.
  intros Hwf Hne.
  destruct (discrete_commands_tree cfg (current_time f) h st Hwf Hne)
    as (wl & wr & pp & sn & sp & _ & _ & _ & _ & _ & Hd).
  match type of Hd with _ = Ok ?r => destruct r as [st1 fired] eqn:Er end.
  destruct (volume_control_cases cfg f h st1 vp Hwf)
    as (st2 & vp' & Hv & _).
  exists st1, fired, st2, vp'.
  split; [exact Hd|]. split; [exact Hv|].
  unfold per_hand. rewrite Hd. cbn [bind]. rewrite Hv. reflexivity.
Qed.

Section HandLoopFull.

Variable cfg : Config.
Variable f : Frame.

(** As [for_hands_invariant], with the displayed percentage in view. *)
Variable P : State -> list command -> Z -> Prop.
Hypothesis P_body :
  forall h st cmds vp st' cmds' vp',
    well_formed h -> P st cmds vp ->
    per_hand cfg f h (st, cmds, vp) = Ok (st', cmds', vp') ->
    P st' cmds' vp'.

Lemma for_hands_invariant_full (hands : list NormalizedLandmarkList) :
  Forall well_formed hands ->
  forall st cmds vp st' cmds' vp',
    P st cmds vp ->
    for_hands cfg f hands (st, cmds, vp) = Ok (st', cmds', vp') ->
    P st' cmds' vp'.
Proof.
  induction 1 as [|h hands Hh _ IH]; intros st cmds vp st' cmds' vp' HP;
    cbn [for_hands].
  - intros [= <- <- <-]. exact HP.
  - destruct (per_hand cfg f h (st, cmds, vp)) as [[[s1 c1] v1]|e] eqn:E;
      cbn [bind]; [|discriminate].
    intros Hrest. eapply IH; [|exact Hrest].
    eapply P_body; eassumption.
Qed.

End HandLoopFull.

(** The message section changes nothing but [current_message], which
    afterwards is what was put on screen. *)
Lemma show_message_fields (now : Q) (st : State) :
  exists st' msg,
    show_message now st = (st', msg) /\
    current_song_index st' = current_song_index st /\
    last_volume st' = last_volume st /\
    master_volume st' = master_volume st /\
    last_wave_time st' = last_wave_time st /\
    last_gesture_time st' = last_gesture_time st /\
    message_start_time st' = message_start_time st /\
    mixer st' = mixer st /\
    current_message st' = msg /\
    ((msg = current_message st /\ msg <> ""%string /\
      (now - message_start_time st < message_duration)%Q) \/
     (msg = ""%string /\
      (current_message st = ""%string \/
       (message_duration <= now - message_start_time st)%Q))).
Proof.
  unfold show_message.
  destruct (String.eqb_spec (current_message st) "") as [E|E]; cbn [negb andb].
  - eexists _, _. split; [reflexivity|]. cbn. repeat split. right. auto.
  - destruct (Qltb (now - message_start_time st) message_duration) eqn:A.
    + apply Qltb_lt in A. eexists _, _. split; [reflexivity|].
      repeat split. left. auto.
    + apply Qltb_ge in A. eexists _, _. split; [reflexivity|]. cbn.
      repeat split. right. auto.
Qed.

(** An iteration is the hand loop followed by the message section. *)
Lemma frame_iteration_steps (cfg : Config) (st : State) (f : Frame) :
  music_files cfg <> [] -> well_formed_frame f ->
  exists st1 out,
    for_hands cfg f (multi_hand_landmarks f)
      (st, [], int (interp (last_volume st) (minVol cfg) (maxVol cfg) 0 100))
    = Ok (st1, commands out, volPer out) /\
    frame_iteration cfg st f = Ok out /\
    show_message (current_time f) st1 = (state_after out, shown_message out).
Proof.
  intros Hne Hwf. unfold frame_iteration.
  destruct (for_hands_total cfg f Hne _ Hwf
              (st, [], int (interp (last_volume st) (minVol cfg) (maxVol cfg)
                              0 100)))
    as [[[st1 cmds] vp] Hf].
  rewrite Hf. cbn [bind].
  destruct (show_message (current_time f) st1) as [st2 msg] eqn:Em.
  exists st1, {| commands := cmds; volPer := vp;
                 shown_message := msg; state_after := st2 |}.
  repeat split. exact Em.
Qed.

Section MainLoop.

Variable cfg : Config.
Hypothesis tracks : music_files cfg <> [].

(** What every iteration on well-formed hands keeps, the loop keeps:
    it holds after each completed iteration and when the loop is left,
    and the loop raises nothing. *)
Variable I : State -> Prop.
Hypothesis I_frame :
  forall st f out,
    well_formed_frame f -> I st ->
    frame_iteration cfg st f = Ok out -> I (state_after out).

Lemma main_loop_invariant (frames : list Frame) :
  Forall well_formed_frame frames ->
  forall st, I st ->
  exists outs final,
    main_loop cfg st frames = (outs, Ok final) /\
    Forall (fun out => I (state_after out)) outs /\
    I final.
Proof.
  induction 1 as [|f frames Hf _ IH]; intros st HI; cbn [main_loop].
  - exists [], st. auto.
  - destruct (success f); cbn [negb]; [|exists [], st; auto].
    destruct (frame_iteration_steps cfg st f tracks Hf)
      as (st1 & out & _ & Hout & _).
    rewrite Hout. pose proof (I_frame st f out Hf HI Hout) as HI'.
    destruct (key_q f).
    + exists [out], (state_after out). auto.
    + destruct (IH (state_after out) HI') as (outs & final & -> & Ho & Hfin).
      exists (out :: outs), final. auto.
Qed.

End MainLoop.

(** What start-up leaves when the directory has a track. *)
Lemma startup_ok (listing : list string) (volRange : Q * Q) (level : Q) :
  filter (fun f => endswith f ".mp3") listing <> [] ->
  exists cfg st p,
    startup listing volRange level = Ok (cfg, st) /\
    music_files cfg
    = sort (map (path_join songs_folder)
              (filter (fun f => endswith f ".mp3") listing)) /\
    music_files cfg <> [] /\
    minVol cfg = fst volRange /\ maxVol cfg = snd volRange /\
    getitem (music_files cfg) 0 = Ok p /\
    st = {| current_song_index := 0;
            last_volume := level;
            last_wave_time := 0;
            last_gesture_time := 0;
            current_message := "";
            message_start_time := 0;
            mixer := Mixer.load p (Mixer.mk None false false);
            master_volume := level |}.
Proof.
  intros Hne. unfold startup.
  set (files := sort (map (path_join songs_folder)
                        (filter (fun f => endswith f ".mp3") listing))).
  assert (files <> []) as Hfiles.
  { intros E. apply (f_equal (@List.length string)) in E.
    unfold files in E. rewrite sort_length, length_map in E.
    destruct (filter _ listing); [congruence|discriminate]. }
  destruct (getitem_in_range files 0) as [p Hp].
  { pose proof (len_pos _ Hfiles). lia. }
  rewrite Hp. cbn [bind].
  eexists _, _, p. split; [reflexivity|]. cbn. repeat split; assumption.
Qed.

(* ================================================================= *)
(** ** Volume level and percentage over a run *)

Lemma interp_inside (v x0 x1 f0 f1 : Q) :
  (x0 < v)%Q -> (v < x1)%Q ->
  (interp v x0 x1 f0 f1 == f0 + (f1 - f0) * ((v - x0) / (x1 - x0)))%Q.
Proof.
  intros H0 H1. unfold interp. qcases; try lra. field. lra.
Qed.

Lemma interp_between (v x0 x1 f0 f1 : Q) :
  (f0 <= f1)%Q -> (f0 <= interp v x0 x1 f0 f1 <= f1)%Q.
Proof.
  intros Hf.
  destruct (Qlt_le_dec x0 v) as [H0|H0];
    [destruct (Qlt_le_dec v x1) as [H1|H1]|].
  - rewrite (interp_inside v x0 x1 f0 f1 H0 H1).
    assert (0 <= (v - x0) / (x1 - x0) <= 1)%Q as [Ht0 Ht1].
    { split.
      - apply Qle_shift_div_l; lra.
      - apply Qle_shift_div_r; lra. }
    split; nra.
  - unfold interp. qcases; lra.
  - unfold interp. qcases; lra.
Qed.

Lemma int_percent (p : Q) : (0 <= p <= 100)%Q -> 0 <= int p <= 100.
Proof.
  intros [H0 H1]. rewrite (int_floor p H0).
  pose proof (Qfloor_resp_le _ _ H0) as A.
  pose proof (Qfloor_resp_le _ _ H1) as B.
  change (Qfloor 0) with 0 in A. change (Qfloor 100) with 100 in B. lia.
Qed.

(** The discrete section leaves the volume alone. *)
Lemma discrete_commands_volume (cfg : Config) (now : Q)
  (h : NormalizedLandmarkList) (st st' : State) (fired : list command) :
  music_files cfg <> [] ->
  discrete_commands cfg now h st = Ok (st', fired) ->
  last_volume st' = last_volume st /\ master_volume st' = master_volume st.
Proof.
  intros Hne Hd. apply discrete_commands_inv in Hd.
  destruct Hd as [[_ ->]|[[_ Hs]|[[_ Hs]|[_ ->]]]]; auto.
  - destruct (next_song_ok cfg now st Hne) as [p Hp].
    rewrite Hp in Hs. injection Hs as <-. auto.
  - destruct (previous_song_ok cfg now st Hne) as [p Hp].
    rewrite Hp in Hs. injection Hs as <-. auto.
Qed.

(** The percentage put on screen is a percentage: whatever the stored
    level, the device range, the hands and the frame size, every
    iteration displays a whole number from 0 to 100. *)
Theorem displayed_percentage_in_range (cfg : Config) (st : State)
  (f : Frame) :
  music_files cfg <> [] -> well_formed_frame f ->
  exists out, frame_iteration cfg st f = Ok out /\ 0 <= volPer out <= 100.
Proof.
  intros Hne Hwf.
  destruct (frame_iteration_steps cfg st f Hne Hwf)
    as (st1 & out & Hf & Hout & _).
  exists out. split; [exact Hout|].
  eapply (for_hands_invariant_full cfg f (fun _ _ vp => 0 <= vp <= 100));
    [|exact Hwf| |exact Hf].
  - intros h s c v s' c' v' Hh Hv Hstep.
    destruct (per_hand_steps cfg f h s c v Hh Hne)
      as (s1 & fired & s2 & v2 & _ & Hvc & Hp).
    rewrite Hp in Hstep. injection Hstep as <- _ <-.
    destruct (volume_control_cases cfg f h s1 v Hh)
      as (s2' & v2' & Hvc' & _ & _ & _ & _ & _ & _ & Hcase).
    rewrite Hvc in Hvc'. injection Hvc' as <- <-.
    destruct Hcase as [(_ & _ & ->)|(_ & d & _ & _ & ->)]; [exact Hv|].
    unfold volPer_of. apply int_percent. apply interp_between. discriminate.
  - apply int_percent. apply interp_between. discriminate.
Qed.

Lemma displayed_percentage_in_range_witness :
  exists out,
    frame_iteration cfg3 st0
      (frame_at 1000 [hand_pinch (0.5, 0.5)%Q (0.6, 0.3)%Q]) = Ok out /\
    0 <= volPer out <= 100.
Proof.
  apply (displayed_percentage_in_range cfg3 st0).
  - discriminate.
  - repeat constructor.
Defined.

Lemma frame_iteration_level_ok (cfg : Config) (st : State) (f : Frame)
  (out : FrameOut) :
  music_files cfg <> [] -> (minVol cfg <= maxVol cfg)%Q ->
  well_formed_frame f -> level_ok cfg st ->
  frame_iteration cfg st f = Ok out -> level_ok cfg (state_after out).
Proof.
  intros Hne Hr Hwf Hok Hout.
  destruct (frame_iteration_steps cfg st f Hne Hwf)
    as (st1 & out' & Hf & Hout' & Hmsg).
  rewrite Hout in Hout'. injection Hout' as <-.
  destruct (show_message_fields (current_time f) st1)
    as (s' & m & Hm & _ & Hlv & Hmv & _).
  rewrite Hmsg in Hm. injection Hm as <- _.
  unfold level_ok. rewrite Hlv, Hmv.
  eapply (for_hands_invariant cfg f (fun s _ => level_ok cfg s));
    [|exact Hwf|exact Hok|exact Hf].
  intros h s c v s' c' v' Hh Hs Hstep.
  destruct (per_hand_steps cfg f h s c v Hh Hne)
    as (s1 & fired & s2 & v2 & Hd & Hvc & Hp).
  rewrite Hp in Hstep. injection Hstep as <- _ _.
  destruct (discrete_commands_volume cfg _ h s s1 fired Hne Hd) as [Ha Hb].
  destruct (volume_control_cases cfg f h s1 v Hh)
    as (s2' & v2' & Hvc' & _ & _ & _ & _ & _ & _ & Hcase).
  rewrite Hvc in Hvc'. injection Hvc' as <- <-.
  unfold level_ok in *.
  destruct Hcase as [(_ & -> & _)|(_ & d & -> & -> & _)].
  - rewrite Ha, Hb. exact Hs.
  - split; [reflexivity|]. unfold new_volume_of.
    apply interp_30_250_bounds. exact Hr.
Qed.

(** The device is never driven out of its range, and the script's
    [last_volume] never drifts from the device: when the endpoint reports
    an ordered range and a level inside it, then after start-up, after
    every iteration and at exit, [last_volume] is the device level and
    the level is within [[minVol, maxVol]]. *)
Theorem device_level_within_range (listing : list string)
  (volRange : Q * Q) (level : Q) (frames : list Frame) :
  filter (fun f => endswith f ".mp3") listing <> [] ->
  Forall well_formed_frame frames ->
  (fst volRange <= level <= snd volRange)%Q ->
  exists cfg st outs final,
    startup listing volRange level = Ok (cfg, st) /\
    level_ok cfg st /\
    main listing volRange level frames = (outs, Ok final) /\
    Forall (fun out => level_ok cfg (state_after out)) outs /\
    level_ok cfg final.
Proof.
  intros Hne Hwf Hlevel.
  destruct (startup_ok listing volRange level Hne)
    as (cfg & st & p & Hs & _ & Hfiles & Hmin & Hmax & _ & Hst).
  assert (level_ok cfg st) as Hok.
  { unfold level_ok. rewrite Hmin, Hmax, Hst. cbn. auto. }
  assert (minVol cfg <= maxVol cfg)%Q as Hr by (rewrite Hmin, Hmax; lra).
  destruct (main_loop_invariant cfg Hfiles (level_ok cfg)) with
    (frames := frames) (st := st) as (outs & final & Hm & Ho & Hfin);
    [|exact Hwf|exact Hok|].
  { intros s f out Hf Hs' Hout.
    eapply frame_iteration_level_ok; eassumption. }
  exists cfg, st, outs, final.
  split; [exact Hs|]. split; [exact Hok|].
  split; [unfold main; rewrite Hs; exact Hm|]. auto.
Qed.

Lemma device_level_within_range_witness :
  exists cfg st outs final,
    startup three_tracks (-65.25, 0)%Q (-20)%Q = Ok (cfg, st) /\
    level_ok cfg st /\
    main three_tracks (-65.25, 0)%Q (-20)%Q
      [frame_at 1000 [hand_pinch (0.5, 0.5)%Q (0.6, 0.3)%Q]]
    = (outs, Ok final) /\
    Forall (fun out => level_ok cfg (state_after out)) outs /\
    level_ok cfg final.
Proof.
  apply (device_level_within_range three_tracks (-65.25, 0)%Q (-20)%Q).
  - discriminate.
  - repeat constructor.
  - split; discriminate.
Defined.

(* ================================================================= *)
(** ** Quiet frames, timestamps and the message *)

(** The hand loop of a frame that ends with no command accepted has
    left everything but the volume as it was. *)
Lemma for_hands_quiet (cfg : Config) (f : Frame) (st0' : State)
  (hands : list NormalizedLandmarkList) :
  music_files cfg <> [] -> Forall well_formed hands ->
  forall vp st1 vp1,
    for_hands cfg f hands (st0', [], vp) = Ok (st1, [], vp1) ->
    current_song_index st1 = current_song_index st0' /\
    last_wave_time st1 = last_wave_time st0' /\
    last_gesture_time st1 = last_gesture_time st0' /\
    current_message st1 = current_message st0' /\
    message_start_time st1 = message_start_time st0' /\
    mixer st1 = mixer st0'.
Proof.
  intros Hne Hwf vp st1 vp1 Hf.
  refine (for_hands_invariant cfg f
            (fun s c => c = [] ->
               current_song_index s = current_song_index st0' /\
               last_wave_time s = last_wave_time st0' /\
               last_gesture_time s = last_gesture_time st0' /\
               current_message s = current_message st0' /\
               message_start_time s = message_start_time st0' /\
               mixer s = mixer st0')
            _ hands Hwf st0' [] vp st1 [] vp1 _ Hf eq_refl).
  - intros h s c v s' c' v' Hh HP Hstep.
    destruct (per_hand_steps cfg f h s c v Hh Hne)
      as (s1 & fired & s2 & v2 & Hd & Hvc & Hp).
    rewrite Hp in Hstep. injection Hstep as <- <- _.
    intros Hnil. apply app_eq_nil in Hnil. destruct Hnil as [-> ->].
    apply discrete_commands_inv in Hd.
    destruct Hd as [[_ ->]|[[Hx _]|[[Hx _]|[Hx _]]]]; try discriminate Hx.
    destruct (volume_control_cases cfg f h s v Hh)
      as (s2' & v2' & Hvc' & Ha & Hb & Hc & Hd & He & Hg & _).
    rewrite Hvc in Hvc'. injection Hvc' as <- <-.
    rewrite Ha, Hb, Hc, Hd, He, Hg. apply HP. reflexivity.
  - intros _. repeat split.
Qed.

(** Volume control and the message section never touch playback: a
    frame in which no command is accepted leaves the playlist position,
    both debounce timestamps, the mixer and the message's start time
    exactly as they were. *)
Theorem quiet_frame_keeps_playback (cfg : Config) (st : State) (f : Frame)
  (out : FrameOut) :
  music_files cfg <> [] -> well_formed_frame f ->
  frame_iteration cfg st f = Ok out -> commands out = [] ->
  current_song_index (state_after out) = current_song_index st /\
  last_wave_time (state_after out) = last_wave_time st /\
  last_gesture_time (state_after out) = last_gesture_time st /\
  mixer (state_after out) = mixer st /\
  message_start_time (state_after out) = message_start_time st.
Proof.
  intros Hne Hwf Hout Hnil.
  destruct (frame_iteration_steps cfg st f Hne Hwf)
    as (st1 & out' & Hf & Hout' & Hmsg).
  rewrite Hout in Hout'. injection Hout' as <-.
  rewrite Hnil in Hf.
  destruct (for_hands_quiet cfg f st _ Hne Hwf _ _ _ Hf)
    as (Hi & Hw & Hg & _ & Hs & Hx).
  destruct (show_message_fields (current_time f) st1)
    as (s' & m & Hm & Hi' & _ & _ & Hw' & Hg' & Hs' & Hx' & _).
  rewrite Hmsg in Hm. injection Hm as <- _.
  rewrite Hi', Hw', Hg', Hs', Hx'. auto.
Qed.

Lemma quiet_frame_keeps_playback_witness :
  exists out,
    frame_iteration cfg3 st_playing
      (frame_at 1000 [hand_pinch (0.5, 0.5)%Q (0.6, 0.3)%Q]) = Ok out /\
    commands out = [] /\
    current_song_index (state_after out) = 1 /\
    mixer (state_after out) = mixer st_playing.
Proof.
  eexists. split; [reflexivity|]. split; [reflexivity|].
  match goal with
  | |- current_song_index (state_after ?o) = _ /\ _ =>
      destruct (quiet_frame_keeps_playback cfg3 st_playing
                  (frame_at 1000 [hand_pinch (0.5, 0.5)%Q (0.6, 0.3)%Q]) o)
        as (Hi & _ & _ & Hx & _)
  end.
  - discriminate.
  - repeat constructor.
  - reflexivity.
  - reflexivity.
  - split; [exact Hi|exact Hx].
Defined.

Lemma command_message_nonempty (c : command) (msg : string) :
  command_message c msg -> msg <> ""%string.
Proof.
  destruct c; cbn; [intros ->|intros ->|intros [->| ->]]; discriminate.
Qed.

Lemma discrete_commands_message (cfg : Config) (now : Q)
  (h : NormalizedLandmarkList) (st st' : State) (c : command) :
  music_files cfg <> [] ->
  discrete_commands cfg now h st = Ok (st', [c]) ->
  command_message c (current_message st') /\ message_start_time st' = now.
Proof.
  intros Hne Hd. apply discrete_commands_inv in Hd.
  destruct Hd as [[Hx _]|[[Hx Hs]|[[Hx Hs]|[Hx ->]]]];
    try discriminate Hx; injection Hx as ->.
  - destruct (next_song_ok cfg now st Hne) as [p Hp].
    rewrite Hp in Hs. injection Hs as <-. cbn. auto.
  - destruct (previous_song_ok cfg now st Hne) as [p Hp].
    rewrite Hp in Hs. injection Hs as <-. cbn. auto.
  - cbn. split; [|reflexivity].
    destruct (Mixer.get_busy (mixer st)); auto.
Qed.

Lemma last_command_message (cfg : Config) (st : State)
  (f : Frame) (out : FrameOut) (earlier : list command) (c : command) :
  music_files cfg <> [] -> well_formed_frame f ->
  frame_iteration cfg st f = Ok out ->
  commands out = (earlier ++ [c])%list ->
  command_message c (shown_message out) /\
  current_message (state_after out) = shown_message out /\
  message_start_time (state_after out) = current_time f.
Proof.
  intros Hne Hwf Hout Hcmds.
  destruct (frame_iteration_steps cfg st f Hne Hwf)
    as (st1 & out' & Hf & Hout' & Hmsg).
  rewrite Hout in Hout'. injection Hout' as <-.
  assert (command_message c (current_message st1) /\
          message_start_time st1 = current_time f) as [Hc Ht].
  { refine (for_hands_invariant cfg f
              (fun s cs => forall pre c0, cs = (pre ++ [c0])%list ->
                 command_message c0 (current_message s) /\
                 message_start_time s = current_time f)
              _ _ Hwf st [] _ st1 (commands out) (volPer out) _ Hf
              earlier c Hcmds).
    - intros h s cs v s' cs' v' Hh HP Hstep pre c0 Hpre.
      destruct (per_hand_steps cfg f h s cs v Hh Hne)
        as (s1 & fired & s2 & v2 & Hd & Hvc & Hp).
      rewrite Hp in Hstep. injection Hstep as <- <- _.
      destruct (volume_control_cases cfg f h s1 v Hh)
        as (s2' & v2' & Hvc' & _ & _ & _ & Hm1 & Hm2 & _).
      rewrite Hvc in Hvc'. injection Hvc' as <- <-.
      rewrite Hm1, Hm2.
      pose proof (discrete_commands_inv _ _ _ _ _ _ Hd) as Hcase.
      destruct Hcase as [[-> ->]|[[-> _]|[[-> _]|[-> _]]]].
      + rewrite app_nil_r in Hpre. apply (HP pre c0 Hpre).
      + apply app_inj_tail in Hpre. destruct Hpre as [_ <-].
        eapply discrete_commands_message; eassumption.
      + apply app_inj_tail in Hpre. destruct Hpre as [_ <-].
        eapply discrete_commands_message; eassumption.
      + apply app_inj_tail in Hpre. destruct Hpre as [_ <-].
        eapply discrete_commands_message; eassumption.
    - intros pre c0 Hpre. destruct pre; discriminate Hpre. }
  destruct (show_message_fields (current_time f) st1)
    as (s' & m & Hm & _ & _ & _ & _ & _ & Hs' & _ & Hcur & Hshown).
  rewrite Hmsg in Hm. injection Hm as <- <-.
  rewrite Hs', Ht.
  destruct Hshown as [(E & _)|(Hempty & [Hnone|Hold])].
  - rewrite <- E in Hc. auto.
  - apply command_message_nonempty in Hc. contradiction.
  - rewrite Ht in Hold. unfold message_duration in Hold. lra.
Qed.

(** Feedback for a command is immediate: in a frame that accepts at
    least one command, the text on screen is that of the last command
    accepted ("Next Song", "Previous Song", or "Paused" / "Playing"), it
    is the stored [current_message], and its start time is the frame's
    timestamp. *)
Theorem accepted_command_is_announced (cfg : Config) (st : State)
  (f : Frame) (out : FrameOut) (earlier : list command) (c : command) :
  music_files cfg <> [] -> well_formed_frame f ->
  frame_iteration cfg st f = Ok out ->
  commands out = (earlier ++ [c])%list ->
  command_message c (shown_message out) /\
  current_message (state_after out) = shown_message out /\
  message_start_time (state_after out) = current_time f.
Proof. apply last_command_message. Qed.

Lemma accepted_command_is_announced_witness :
  exists out,
    frame_iteration cfg3 st0 (frame_at 1000 [hand_ok_sign; hand_wave_left])
    = Ok out /\
    commands out = [PlayPauseToggle; NextTrack] /\
    shown_message out = "Next Song"%string.
Proof.
  eexists. split; [reflexivity|]. split; [reflexivity|].
  match goal with
  | |- shown_message ?o = _ =>
      destruct (accepted_command_is_announced cfg3 st0
                  (frame_at 1000 [hand_ok_sign; hand_wave_left]) o
                  [PlayPauseToggle] NextTrack) as (Hc & _)
  end.
  - discriminate.
  - repeat constructor.
  - reflexivity.
  - reflexivity.
  - exact Hc.
Defined.

(** A message lives for less than [message_duration]: after a frame that
    accepted a command, a later frame that accepts none still shows the
    same text if less than one second has passed, and shows nothing and
    clears [current_message] once a second or more has passed. *)
Theorem message_expires (cfg : Config) (st : State) (f1 f2 : Frame)
  (out1 out2 : FrameOut) :
  music_files cfg <> [] -> well_formed_frame f1 -> well_formed_frame f2 ->
  frame_iteration cfg st f1 = Ok out1 -> commands out1 <> [] ->
  frame_iteration cfg (state_after out1) f2 = Ok out2 ->
  commands out2 = [] ->
  ((current_time f2 - current_time f1 < message_duration)%Q ->
   shown_message out2 = shown_message out1) /\
  ((message_duration <= current_time f2 - current_time f1)%Q ->
   shown_message out2 = ""%string /\
   current_message (state_after out2) = ""%string).
Proof.
  intros Hne Hwf1 Hwf2 Hout1 Hcmds Hout2 Hquiet.
  destruct (exists_last Hcmds) as (earlier & c & Hlast).
  destruct (last_command_message cfg st f1 out1 earlier c
              Hne Hwf1 Hout1 Hlast) as (Hc & Hcur & Hstart).
  destruct (frame_iteration_steps cfg (state_after out1) f2 Hne Hwf2)
    as (st1 & out' & Hf & Hout' & Hmsg).
  rewrite Hout2 in Hout'. injection Hout' as <-.
  rewrite Hquiet in Hf.
  destruct (for_hands_quiet cfg f2 _ _ Hne Hwf2 _ _ _ Hf)
    as (_ & _ & _ & Hm1 & Hm2 & _).
  destruct (show_message_fields (current_time f2) st1)
    as (s' & m & Hm & _ & _ & _ & _ & _ & _ & _ & Hcur2 & Hshown).
  rewrite Hmsg in Hm. injection Hm as <- <-.
  rewrite Hm1, Hm2, Hcur, Hstart in Hshown.
  apply command_message_nonempty in Hc.
  split.
  - intros Hyoung.
    destruct Hshown as [(E & _)|(_ & [Hnone|Hold])];
      [exact E|contradiction|lra].
  - intros Hold.
    destruct Hshown as [(_ & _ & Hyoung)|(Hempty & _)]; [lra|].
    rewrite Hcur2. auto.
Qed.

Lemma message_expires_witness :
  exists out1 out2,
    frame_iteration cfg3 st0 (frame_at 1000 [hand_wave_left]) = Ok out1 /\
    frame_iteration cfg3 (state_after out1) (frame_at 1001 []) = Ok out2 /\
    shown_message out1 = "Next Song"%string /\
    shown_message out2 = ""%string.
Proof.
  eexists. eexists. split; [reflexivity|]. split; [reflexivity|].
  match goal with
  | |- shown_message ?o1 = _ /\ shown_message ?o2 = _ =>
      destruct (message_expires cfg3 st0 (frame_at 1000 [hand_wave_left])
                  (frame_at 1001 []) o1 o2) as (_ & Hold)
  end.
  - discriminate.
  - repeat constructor.
  - constructor.
  - reflexivity.
  - discriminate.
  - reflexivity.
  - reflexivity.
  - split; [reflexivity|]. apply Hold. discriminate.
Defined.

(** The two timestamps are exactly the times of the last acceptances.
    In every frame: if a wave command is accepted, the wave gate was
    open when the frame began and [last_wave_time] becomes the frame's
    timestamp; if none is, [last_wave_time] is unchanged.  Likewise a
    toggle is accepted only if the gesture gate was open when the frame
    began, and [last_gesture_time] changes (to the frame's timestamp)
    exactly when one is accepted. *)
Theorem timestamps_record_acceptance (cfg : Config) (st : State)
  (f : Frame) :
  music_files cfg <> [] -> well_formed_frame f ->
  exists out,
    frame_iteration cfg st f = Ok out /\
    (has_wave (commands out) = true ->
       wave_gate_open (current_time f) st /\
       last_wave_time (state_after out) = current_time f) /\
    (has_wave (commands out) = false ->
       last_wave_time (state_after out) = last_wave_time st) /\
    (has_toggle (commands out) = true ->
       gesture_gate_open (current_time f) st /\
       last_gesture_time (state_after out) = current_time f) /\
    (has_toggle (commands out) = false ->
       last_gesture_time (state_after out) = last_gesture_time st).
Proof.
  intros Hne Hwf.
  destruct (frame_iteration_steps cfg st f Hne Hwf)
    as (st1 & out & Hf & Hout & Hmsg).
  exists out. split; [exact Hout|].
  destruct (show_message_fields (current_time f) st1)
    as (s' & m & Hm & _ & _ & _ & Hw' & Hg' & _).
  rewrite Hmsg in Hm. injection Hm as <- _. rewrite Hw', Hg'.
  refine (for_hands_invariant cfg f
            (fun s c =>
               (has_wave c = true ->
                  wave_gate_open (current_time f) st /\
                  last_wave_time s = current_time f) /\
               (has_wave c = false -> last_wave_time s = last_wave_time st) /\
               (has_toggle c = true ->
                  gesture_gate_open (current_time f) st /\
                  last_gesture_time s = current_time f) /\
               (has_toggle c = false ->
                  last_gesture_time s = last_gesture_time st))
            _ _ Hwf st [] _ st1 (commands out) (volPer out) _ Hf).
  - intros h s c v s2 c' v' Hh (W1 & W0 & T1 & T0) Hstep.
    destruct (per_hand_steps cfg f h s c v Hh Hne)
      as (s1 & fired & s2' & v2 & Hd & Hvc & Hp).
    rewrite Hp in Hstep. injection Hstep as <- <- _.
    destruct (volume_control_cases cfg f h s1 v Hh)
      as (s2'' & v2' & Hvc' & _ & Hb & Hc & _).
    rewrite Hvc in Hvc'. injection Hvc' as <- <-.
    rewrite Hb, Hc.
    destruct (discrete_commands_tree cfg (current_time f) h s Hh Hne)
      as (wl & wr & pp & sn & sp & _ & _ & _ & Hn & Hq & Hd').
    destruct (next_song_ok cfg (current_time f) s Hne) as [pn Hn'].
    destruct (previous_song_ok cfg (current_time f) s Hne) as [pq Hq'].
    rewrite Hn in Hn'. injection Hn' as ->.
    rewrite Hq in Hq'. injection Hq' as ->.
    rewrite Hd in Hd'. injection Hd' as Hd'.
    unfold has_wave, has_toggle in *. rewrite !existsb_app.
    unfold wave_gate_open, gesture_gate_open in *.
    destruct (existsb is_wave c) eqn:EW;
      [destruct (W1 eq_refl) as [Wopen Wt]; rewrite Wt in Hd';
       rewrite gate_closed_after_fire in Hd'
      |pose proof (W0 eq_refl) as Wt; rewrite Wt in Hd';
       destruct (Qgtb (current_time f - last_wave_time st) cooldown_time)
         eqn:G1; [apply Qgtb_gt in G1|]];
      (destruct (existsb (fun c0 => negb (is_wave c0)) c) eqn:ET;
       [destruct (T1 eq_refl) as [Topen Tt];
        try (rewrite Tt in Hd';
             rewrite gesture_gate_closed_after_fire in Hd')
       |pose proof (T0 eq_refl) as Tt; try rewrite Tt in Hd';
        destruct (Qgtb (current_time f - last_gesture_time st)
                    gesture_cooldown) eqn:G2; [apply Qgtb_gt in G2|]]);
      destruct wl, wr, pp; cbn in Hd'; injection Hd' as -> ->; cbn;
      repeat split; intros; try discriminate; try assumption;
      try reflexivity.
  - unfold has_wave, has_toggle. cbn.
    repeat split; intros; try discriminate; reflexivity.
Qed.

Lemma timestamps_record_acceptance_witness :
  exists out,
    frame_iteration cfg3 st0 (frame_at 1000 [hand_wave_left]) = Ok out /\
    wave_gate_open 1000 st0 /\
    last_wave_time (state_after out) = 1000%Q.
Proof.
  destruct (timestamps_record_acceptance cfg3 st0
              (frame_at 1000 [hand_wave_left]))
    as (out & Hout & W1 & _); [discriminate|repeat constructor|].
  exists out. split; [exact Hout|].
  apply W1. injection Hout as <-. reflexivity.
Defined.

(* ================================================================= *)
(** ** The loaded track *)

Lemma next_song_loaded (cfg : Config) (now : Q) (st st' : State) :
  next_song cfg now st = Ok st' -> track_loaded cfg st'.
Proof.
  unfold next_song, track_loaded.
  destruct (next_song_index cfg (current_song_index st)) as [i|e];
    cbn [bind]; [|discriminate].
  destruct (getitem (music_files cfg) i) as [p|e] eqn:G;
    cbn [bind]; [|discriminate].
  intros [= <-]. exists p. cbn. auto.
Qed.

Lemma previous_song_loaded (cfg : Config) (now : Q) (st st' : State) :
  previous_song cfg now st = Ok st' -> track_loaded cfg st'.
Proof.
  unfold previous_song, track_loaded.
  destruct (previous_song_index cfg (current_song_index st)) as [i|e];
    cbn [bind]; [|discriminate].
  destruct (getitem (music_files cfg) i) as [p|e] eqn:G;
    cbn [bind]; [|discriminate].
  intros [= <-]. exists p. cbn. auto.
Qed.

Lemma frame_iteration_track_loaded (cfg : Config) (st : State) (f : Frame)
  (out : FrameOut) :
  music_files cfg <> [] -> well_formed_frame f -> track_loaded cfg st ->
  frame_iteration cfg st f = Ok out -> track_loaded cfg (state_after out).
Proof.
  intros Hne Hwf Hok Hout.
  destruct (frame_iteration_steps cfg st f Hne Hwf)
    as (st1 & out' & Hf & Hout' & Hmsg).
  rewrite Hout in Hout'. injection Hout' as <-.
  destruct (show_message_fields (current_time f) st1)
    as (s' & m & Hm & Hi & _ & _ & _ & _ & _ & Hx & _).
  rewrite Hmsg in Hm. injection Hm as <- _.
  unfold track_loaded. rewrite Hi, Hx.
  eapply (for_hands_invariant cfg f (fun s _ => track_loaded cfg s));
    [|exact Hwf|exact Hok|exact Hf].
  intros h s c v s' c' v' Hh Hs Hstep.
  destruct (per_hand_steps cfg f h s c v Hh Hne)
    as (s1 & fired & s2 & v2 & Hd & Hvc & Hp).
  rewrite Hp in Hstep. injection Hstep as <- _ _.
  destruct (volume_control_cases cfg f h s1 v Hh)
    as (s2' & v2' & Hvc' & Ha & _ & _ & _ & _ & Hb & _).
  rewrite Hvc in Hvc'. injection Hvc' as <- <-.
  unfold track_loaded. rewrite Ha, Hb.
  apply discrete_commands_inv in Hd.
  destruct Hd as [[_ ->]|[[_ Hs1]|[[_ Hs1]|[_ ->]]]].
  - exact Hs.
  - eapply next_song_loaded; eassumption.
  - eapply previous_song_loaded; eassumption.
  - destruct Hs as (p & Hg & Hl). exists p. split; [exact Hg|].
    unfold play_pause. cbn.
    destruct (Mixer.get_busy (mixer s)); cbn; exact Hl.
Qed.

(** The mixer always holds the track the playlist position points at:
    after start-up, after every iteration and at exit, the file last
    handed to [pygame.mixer.music.load] is
    [music_files[current_song_index]]. *)
Theorem loaded_track_follows_index (listing : list string)
  (volRange : Q * Q) (level : Q) (frames : list Frame) :
  filter (fun f => endswith f ".mp3") listing <> [] ->
  Forall well_formed_frame frames ->
  exists cfg st outs final,
    startup listing volRange level = Ok (cfg, st) /\
    track_loaded cfg st /\
    main listing volRange level frames = (outs, Ok final) /\
    Forall (fun out => track_loaded cfg (state_after out)) outs /\
    track_loaded cfg final.
Proof.
  intros Hne Hwf.
  destruct (startup_ok listing volRange level Hne)
    as (cfg & st & p & Hs & _ & Hfiles & _ & _ & Hp & Hst).
  assert (track_loaded cfg st) as Hok.
  { exists p. rewrite Hst. cbn. auto. }
  destruct (main_loop_invariant cfg Hfiles (track_loaded cfg)) with
    (frames := frames) (st := st) as (outs & final & Hm & Ho & Hfin);
    [|exact Hwf|exact Hok|].
  { intros s f out Hf Hs' Hout.
    eapply frame_iteration_track_loaded; eassumption. }
  exists cfg, st, outs, final.
  split; [exact Hs|]. split; [exact Hok|].
  split; [unfold main; rewrite Hs; exact Hm|]. auto.
Qed.

Lemma loaded_track_follows_index_witness :
  exists cfg st outs final,
    startup three_tracks (-65.25, 0)%Q (-20)%Q = Ok (cfg, st) /\
    track_loaded cfg st /\
    main three_tracks (-65.25, 0)%Q (-20)%Q
      [frame_at 1000 [hand_wave_right]; frame_at 1002 [hand_ok_sign]]
    = (outs, Ok final) /\
    Forall (fun out => track_loaded cfg (state_after out)) outs /\
    track_loaded cfg final.
Proof.
  apply (loaded_track_follows_index three_tracks (-65.25, 0)%Q (-20)%Q).
  - discriminate.
  - repeat constructor.
Defined.

(* ================================================================= *)
(** ** Leaving the loop *)

(** Nothing runs after the loop is left: once a frame fails to be read,
    or [q] is pressed during a frame, the frames after it change
    neither the outputs nor the final state; and a failed read itself
    contributes nothing. *)
Theorem nothing_after_the_loop_is_left (cfg : Config) (st : State)
  (before : list Frame) (f : Frame) (after : list Frame) :
  success f = false \/ key_q f = true ->
  main_loop cfg st (before ++ f :: after)
  = main_loop cfg st (before ++ [f]) /\
  (success f = false ->
   main_loop cfg st (before ++ f :: after) = main_loop cfg st before).
Proof.
  intros Hstop. revert st.
  induction before as [|g before IH]; intros st; cbn [app main_loop].
  - destruct Hstop as [Hs|Hq].
    + rewrite Hs. cbn. auto.
    + split.
      * destruct (success f); cbn [negb]; [|reflexivity].
        destruct (frame_iteration cfg st f); [|reflexivity].
        rewrite Hq. reflexivity.
      * intros Hs. rewrite Hs. reflexivity.
  - destruct (negb (success g)); [auto|].
    destruct (frame_iteration cfg st g) as [out|e]; [|auto].
    destruct (key_q g); [auto|].
    destruct (IH (state_after out)) as [IH1 IH2].
    rewrite IH1. split; [reflexivity|].
    intros Hs. rewrite <- IH1, (IH2 Hs). reflexivity.
Qed.

Lemma nothing_after_the_loop_is_left_witness :
  main_loop cfg3 st0
    ([frame_at 1000 [hand_wave_left]]
     ++ at_time 1002 {| success := false; multi_hand_landmarks := [];
                        current_time := 0; shape := (480, 640);
                        key_q := false |}
     :: [frame_at 1004 [hand_wave_left]])
  = main_loop cfg3 st0 [frame_at 1000 [hand_wave_left]].
Proof.
  apply (nothing_after_the_loop_is_left cfg3 st0
           [frame_at 1000 [hand_wave_left]]).
  - left. reflexivity.
  - reflexivity.
Defined.

(* ================================================================= *)
(** ** Going round the playlist *)

Lemma index_mod_small (cfg : Config) (st : State) :
  index_valid cfg st ->
  current_song_index st mod len (music_files cfg) = current_song_index st.
Proof. intros H. apply Z.mod_small. exact H. Qed.

(** PreviousTrack undoes NextTrack and NextTrack undoes PreviousTrack:
    from a valid position on a non-empty playlist, accepting one and
    then the other (at any times) brings [current_song_index] back,
    also across the wrap at either end. *)
Theorem previous_undoes_next (cfg : Config) (t1 t2 : Q) (st : State) :
  music_files cfg <> [] -> index_valid cfg st ->
  (exists s1 s2,
     next_song cfg t1 st = Ok s1 /\ previous_song cfg t2 s1 = Ok s2 /\
     current_song_index s2 = current_song_index st) /\
  (exists s1 s2,
     previous_song cfg t1 st = Ok s1 /\ next_song cfg t2 s1 = Ok s2 /\
     current_song_index s2 = current_song_index st).
Proof.
  intros Hne Hv. pose proof (len_pos _ Hne) as Hn.
  unfold index_valid in Hv.
  set (n := len (music_files cfg)) in *.
  set (i := current_song_index st) in *.
  split.
  - destruct (next_song_ok cfg t1 st Hne) as [p1 H1].
    eexists. rewrite H1.
    match goal with
    | |- exists s2, Ok ?s = _ /\ _ =>
        destruct (previous_song_ok cfg t2 s Hne) as [p2 H2]
    end.
    eexists. split; [reflexivity|]. split; [exact H2|]. cbn.
    fold n i.
    destruct (Z.eq_dec i (n - 1)) as [E|E].
    + rewrite (proj1 (next_index_wraps n i Hv) E).
      rewrite (proj1 (previous_index_wraps n 0 ltac:(lia)) eq_refl). lia.
    + rewrite (proj2 (next_index_wraps n i Hv) E).
      replace (i + 1 - 1) with i by lia. apply Z.mod_small. exact Hv.
  - destruct (previous_song_ok cfg t1 st Hne) as [p1 H1].
    eexists. rewrite H1.
    match goal with
    | |- exists s2, Ok ?s = _ /\ _ =>
        destruct (next_song_ok cfg t2 s Hne) as [p2 H2]
    end.
    eexists. split; [reflexivity|]. split; [exact H2|]. cbn.
    fold n i.
    destruct (Z.eq_dec i 0) as [E|E].
    + rewrite (proj1 (previous_index_wraps n i Hv) E).
      rewrite (proj1 (next_index_wraps n (n - 1) ltac:(lia)) eq_refl). lia.
    + rewrite (proj2 (previous_index_wraps n i Hv) E).
      replace (i - 1 + 1) with i by lia. apply Z.mod_small. exact Hv.
Qed.

Lemma previous_undoes_next_witness :
  exists s1 s2,
    previous_song cfg3 1000 st0 = Ok s1 /\ next_song cfg3 1002 s1 = Ok s2 /\
    current_song_index s1 = 2 /\ current_song_index s2 = 0.
Proof.
  destruct (previous_undoes_next cfg3 1000 1002 st0)
    as [_ (s1 & s2 & H1 & H2 & Hi)];
    [discriminate|split; reflexivity|].
  exists s1, s2. split; [exact H1|]. split; [exact H2|].
  split; [|exact Hi]. injection H1 as <-. reflexivity.
Defined.

Lemma next_songs_index (cfg : Config) (now : nat -> Q) (st : State) :
  music_files cfg <> [] -> index_valid cfg st ->
  forall k, exists st',
    next_songs cfg now k st = Ok st' /\
    current_song_index st'
    = (current_song_index st + Z.of_nat k) mod len (music_files cfg).
Proof.
  intros Hne Hv. induction k as [|k IH].
  - exists st. split; [reflexivity|].
    rewrite Z.add_0_r. symmetry. apply index_mod_small. exact Hv.
  - destruct IH as (s & Hs & Hi). cbn [next_songs]. rewrite Hs. cbn [bind].
    destruct (next_song_ok cfg (now k) s Hne) as [p Hp].
    eexists. split; [exact Hp|]. cbn. rewrite Hi.
    rewrite Zplus_mod_idemp_l. f_equal. lia.
Qed.

(** The playlist is a ring: from a valid position, whenever [k]
    NextTrack commands in a row have all been carried out, the position
    has moved [k] steps round the playlist, [(i + k) % len(music_files)];
    so after as many commands as there are tracks it is back where it
    was.  (A command is not carried out when its load raises; the
    statement is about the runs in which none does.) *)
Theorem full_turn_of_next (cfg : Config) (now : nat -> Q) (k : nat)
  (st st' : State) :
  music_files cfg <> [] -> index_valid cfg st ->
  next_songs cfg now k st = Ok st' ->
  current_song_index st'
  = (current_song_index st + Z.of_nat k) mod len (music_files cfg) /\
  (k = List.length (music_files cfg) ->
   current_song_index st' = current_song_index st).
Proof.
  intros Hne Hv Hrun.
  destruct (next_songs_index cfg now st Hne Hv k) as (s & Hs & Hi).
  rewrite Hrun in Hs. injection Hs as <-.
  split; [exact Hi|].
  intros ->. rewrite Hi.
  fold (len (music_files cfg)).
  rewrite <- (Z.mul_1_l (len (music_files cfg))) at 1.
  rewrite Z_mod_plus_full. apply index_mod_small. exact Hv.
Qed.

Lemma full_turn_of_next_witness :
  exists st',
    next_songs cfg3 (fun i => inject_Z (1000 + 2 * Z.of_nat i)) 3 st0
    = Ok st' /\
    current_song_index st' = 0.
Proof.
  eexists. split; [reflexivity|].
  match goal with
  | |- current_song_index ?s = _ =>
      exact (proj2 (full_turn_of_next cfg3
                      (fun i => inject_Z (1000 + 2 * Z.of_nat i)) 3 st0 s
                      ltac:(discriminate)
                      ltac:(split; [discriminate|reflexivity]) eq_refl)
               eq_refl)
  end.
Defined.

(* ================================================================= *)
(** ** The playlist built at start-up *)

Lemma string_le_trans (a b c : string) :
  string_le a b -> string_le b c -> string_le a c.
Proof.
  unfold string_le, String.leb. revert b c.
  induction a as [|x a IH]; intros [|y b] [|z c]; cbn; try easy.
  unfold Ascii.compare.
  destruct (N.compare_spec (N_of_ascii x) (N_of_ascii y)) as [E1|E1|E1];
    destruct (N.compare_spec (N_of_ascii y) (N_of_ascii z)) as [E2|E2|E2];
    destruct (N.compare_spec (N_of_ascii x) (N_of_ascii z)) as [E3|E3|E3];
    try easy; try lia.
  apply IH.
Qed.

Lemma ltb_string_le (a b : string) : String.ltb a b = true -> string_le a b.
Proof.
  unfold string_le, String.ltb, String.leb.
  destruct (String.compare a b); easy.
Qed.

Lemma not_ltb_string_le (a b : string) :
  String.ltb a b = false -> string_le b a.
Proof.
  unfold string_le, String.ltb, String.leb.
  rewrite (String.compare_antisym b a).
  destruct (String.compare a b); easy.
Qed.

Lemma insort_permutation (s : string) (l : list string) :
  Permutation (insort s l) (s :: l).
Proof.
  induction l as [|t l IH]; cbn; [reflexivity|].
  destruct (String.ltb s t); [reflexivity|].
  rewrite IH. apply perm_swap.
Qed.

Lemma insort_sorted (s : string) (l : list string) :
  StronglySorted string_le l -> StronglySorted string_le (insort s l).
Proof.
  induction 1 as [|t l Hl IH Ht]; cbn.
  - constructor; constructor.
  - destruct (String.ltb s t) eqn:E.
    + apply ltb_string_le in E. constructor.
      * constructor; assumption.
      * constructor; [exact E|].
        eapply Forall_impl; [|exact Ht].
        intros u Hu. eapply string_le_trans; eassumption.
    + apply not_ltb_string_le in E. constructor; [exact IH|].
      eapply Permutation_Forall;
        [symmetry; apply insort_permutation|].
      constructor; assumption.
Qed.

Lemma sort_spec (l : list string) :
  StronglySorted string_le (sort l) /\ Permutation (sort l) l.
Proof.
  unfold sort.
  enough (forall acc, StronglySorted string_le acc ->
            StronglySorted string_le
              (fold_left (fun a s => insort s a) l acc) /\
            Permutation (fold_left (fun a s => insort s a) l acc)
              (l ++ acc)) as H.
  { destruct (H [] (SSorted_nil _)) as [A B].
    rewrite app_nil_r in B. auto. }
  induction l as [|s l IH]; intros acc Hacc; cbn.
  - auto.
  - destruct (IH (insort s acc) (insort_sorted s acc Hacc)) as [A B].
    split; [exact A|]. rewrite B.
    rewrite insort_permutation. symmetry. apply Permutation_middle.
Qed.

(** The playlist start-up builds is the directory's ".mp3" entries and
    nothing else, each joined to the songs folder, in ascending order;
    the file loaded first is its first, hence its least, element, and
    nothing is played yet. *)
Theorem playlist_is_the_sorted_mp3_entries (listing : list string)
  (volRange : Q * Q) (level : Q) (cfg : Config) (st : State) :
  startup listing volRange level = Ok (cfg, st) ->
  StronglySorted string_le (music_files cfg) /\
  Permutation (music_files cfg)
    (map (path_join songs_folder)
       (filter (fun f => endswith f ".mp3") listing)) /\
  (forall p, In p (music_files cfg) <->
     exists f, In f listing /\ endswith f ".mp3" = true /\
               p = path_join songs_folder f) /\
  (exists first rest,
     music_files cfg = first :: rest /\
     Mixer.loaded (mixer st) = Some first /\
     Mixer.get_busy (mixer st) = false /\
     forall p, In p (music_files cfg) -> string_le first p).
Proof.
  unfold startup.
  set (entries := map (path_join songs_folder)
                    (filter (fun f => endswith f ".mp3") listing)).
  destruct (sort_spec entries) as [Hsorted Hperm].
  destruct (getitem (sort entries) 0) as [first|e] eqn:G;
    cbn [bind]; [|discriminate].
  intros [= <- <-]. cbn.
  split; [exact Hsorted|]. split; [exact Hperm|]. split.
  - intros p. split.
    + intros Hp. apply (Permutation_in _ Hperm) in Hp.
      unfold entries in Hp. apply in_map_iff in Hp.
      destruct Hp as (f & <- & Hf). apply filter_In in Hf.
      exists f. tauto.
    + intros (f & Hf & He & ->).
      apply (Permutation_in _ (Permutation_sym Hperm)).
      unfold entries. apply in_map_iff. exists f.
      split; [reflexivity|]. apply filter_In. auto.
  - unfold getitem in G. cbn in G.
    destruct (sort entries) as [|x rest] eqn:E; [discriminate|].
    injection G as ->. exists first, rest.
    split; [reflexivity|]. split; [reflexivity|]. split; [reflexivity|].
    intros p [<-|Hp].
    + unfold string_le.
      destruct (String.leb_total first first); assumption.
    + inversion Hsorted as [|? ? _ Hall]; subst.
      rewrite Forall_forall in Hall. apply Hall. exact Hp.
Qed.

Lemma playlist_is_the_sorted_mp3_entries_witness :
  exists cfg st,
    startup ["b.mp3"; "notes.txt"; "a.mp3"]%string (-65.25, 0)%Q (-20)%Q
    = Ok (cfg, st) /\
    music_files cfg = ["songs/a.mp3"; "songs/b.mp3"]%string /\
    StronglySorted string_le (music_files cfg).
Proof.
  eexists. eexists. split; [reflexivity|]. split; [reflexivity|].
  match goal with
  | |- StronglySorted _ (music_files ?c) =>
      exact (proj1 (playlist_is_the_sorted_mp3_entries
                      ["b.mp3"; "notes.txt"; "a.mp3"]%string
                      (-65.25, 0)%Q (-20)%Q c _ eq_refl))
  end.
Defined.

(* ================================================================= *)
(** ** The volume channel of a frame *)

Lemma volume_control_pinch (cfg : Config) (f : Frame)
  (h : NormalizedLandmarkList) (st st' : State) (vp vp' : Z) :
  well_formed h ->
  volume_control cfg f h st vp = Ok (st', vp') ->
  if pinching h
  then last_volume st' = new_volume_of cfg (pinch_length f h) /\
       master_volume st' = new_volume_of cfg (pinch_length f h) /\
       vp' = volPer_of (pinch_length f h)
  else st' = st /\ vp' = vp.
Proof.
  intros Hwf. unfold volume_control, pinching, pinch_length.
  destruct (is_volume_control_gesture_total h Hwf) as [vg ->]. cbn [bind].
  destruct vg.
  - destruct (shape f) as [hh ww]. points h Hwf. cbn [bind].
    intros [= <- <-]. cbn. repeat split.
  - intros [= <- <-]. auto.
Qed.

Lemma for_hands_volume (cfg : Config) (f : Frame) (lv0 mv0 : Q) (vp0 : Z)
  (hands : list NormalizedLandmarkList) :
  music_files cfg <> [] -> Forall well_formed hands ->
  forall acc st cmds vp st' cmds' vp',
    match acc with
    | Some d => last_volume st = new_volume_of cfg d /\
                master_volume st = new_volume_of cfg d /\
                vp = volPer_of d
    | None => last_volume st = lv0 /\ master_volume st = mv0 /\ vp = vp0
    end ->
    for_hands cfg f hands (st, cmds, vp) = Ok (st', cmds', vp') ->
    match fold_left
            (fun a h => if pinching h then Some (pinch_length f h) else a)
            hands acc with
    | Some d => last_volume st' = new_volume_of cfg d /\
                master_volume st' = new_volume_of cfg d /\
                vp' = volPer_of d
    | None => last_volume st' = lv0 /\ master_volume st' = mv0 /\ vp' = vp0
    end.
Proof.
  intros Hne. induction 1 as [|h hands Hh _ IH];
    intros acc st cmds vp st' cmds' vp' Hacc; cbn [for_hands fold_left].
  - intros [= <- <- <-]. exact Hacc.
  - destruct (per_hand_steps cfg f h st cmds vp Hh Hne)
      as (s1 & fired & s2 & v2 & Hd & Hvc & Hp).
    rewrite Hp. cbn [bind]. apply IH.
    destruct (discrete_commands_volume cfg _ h st s1 fired Hne Hd) as [Ha Hb].
    pose proof (volume_control_pinch cfg f h s1 s2 vp v2 Hh Hvc) as Hv.
    destruct (pinching h).
    + exact Hv.
    + destruct Hv as [-> ->]. rewrite Ha, Hb. exact Hacc.
Qed.

(** The volume channel runs beside the command channel: the level a
    frame leaves, and the percentage it shows, depend only on the pinch
    poses of its hands, not on gates, timestamps or accepted commands.
    The last hand (in detector order) showing the volume pose sets both
    from its thumb-index pixel distance; without such a hand the level
    stays and the percentage is that of the stored level. *)
Theorem volume_follows_last_pinch (cfg : Config) (st : State) (f : Frame) :
  music_files cfg <> [] -> well_formed_frame f ->
  exists out,
    frame_iteration cfg st f = Ok out /\
    match last_pinch f (multi_hand_landmarks f) with
    | Some d =>
        last_volume (state_after out) = new_volume_of cfg d /\
        master_volume (state_after out) = new_volume_of cfg d /\
        volPer out = volPer_of d
    | None =>
        last_volume (state_after out) = last_volume st /\
        master_volume (state_after out) = master_volume st /\
        volPer out
        = int (interp (last_volume st) (minVol cfg) (maxVol cfg) 0 100)
    end.
Proof.
  intros Hne Hwf.
  destruct (frame_iteration_steps cfg st f Hne Hwf)
    as (st1 & out & Hf & Hout & Hmsg).
  exists out. split; [exact Hout|].
  destruct (show_message_fields (current_time f) st1)
    as (s' & m & Hm & _ & Hlv & Hmv & _).
  rewrite Hmsg in Hm. injection Hm as <- _. rewrite Hlv, Hmv.
  unfold last_pinch.
  apply (for_hands_volume cfg f (last_volume st) (master_volume st)
           (int (interp (last_volume st) (minVol cfg) (maxVol cfg) 0 100))
           (multi_hand_landmarks f) Hne Hwf None st []
           (int (interp (last_volume st) (minVol cfg) (maxVol cfg) 0 100))
           st1 (commands out) (volPer out)); [|exact Hf].
  repeat split.
Qed.

Lemma volume_follows_last_pinch_witness :
  exists out,
    frame_iteration cfg3 st0
      (frame_at 1000 [hand_pinch (0.5, 0.5)%Q (0.6, 0.3)%Q; hand_wave_left])
    = Ok out /\
    commands out = [NextTrack] /\
    volPer out = 38.
Proof.
  destruct (volume_follows_last_pinch cfg3 st0
              (frame_at 1000 [hand_pinch (0.5, 0.5)%Q (0.6, 0.3)%Q;
                              hand_wave_left]))
    as (out & Hout & Hv); [discriminate|repeat constructor|].
  exists out. split; [exact Hout|]. split.
  - injection Hout as <-. reflexivity.
  - change (last_pinch _ _) with
      (Some (pinch_length
               (frame_at 1000 [hand_pinch (0.5, 0.5)%Q (0.6, 0.3)%Q;
                               hand_wave_left])
               (hand_pinch (0.5, 0.5)%Q (0.6, 0.3)%Q))) in Hv.
    destruct Hv as (_ & _ & ->). reflexivity.
Defined.

(** A toggle never changes the track: in a frame that accepts no wave
    command, [current_song_index] and the file the mixer holds are what
    they were, whatever else the frame did. *)
Theorem track_changes_only_by_waves (cfg : Config) (st : State) (f : Frame)
  (out : FrameOut) :
  music_files cfg <> [] -> well_formed_frame f ->
  frame_iteration cfg st f = Ok out ->
  has_wave (commands out) = false ->
  current_song_index (state_after out) = current_song_index st /\
  Mixer.loaded (mixer (state_after out)) = Mixer.loaded (mixer st).
Proof.
  intros Hne Hwf Hout Hnowave.
  destruct (frame_iteration_steps cfg st f Hne Hwf)
    as (st1 & out' & Hf & Hout' & Hmsg).
  rewrite Hout in Hout'. injection Hout' as <-.
  destruct (show_message_fields (current_time f) st1)
    as (s' & m & Hm & Hi & _ & _ & _ & _ & _ & Hx & _).
  rewrite Hmsg in Hm. injection Hm as <- _. rewrite Hi, Hx.
  refine (for_hands_invariant cfg f
            (fun s c => has_wave c = false ->
               current_song_index s = current_song_index st /\
               Mixer.loaded (mixer s) = Mixer.loaded (mixer st))
            _ _ Hwf st [] _ st1 (commands out) (volPer out) _ Hf Hnowave).
  - intros h s c v s2 c' v' Hh HP Hstep.
    destruct (per_hand_steps cfg f h s c v Hh Hne)
      as (s1 & fired & s2' & v2 & Hd & Hvc & Hp).
    rewrite Hp in Hstep. injection Hstep as <- <- _.
    destruct (volume_control_cases cfg f h s1 v Hh)
      as (s2'' & v2' & Hvc' & Ha & _ & _ & _ & _ & Hb & _).
    rewrite Hvc in Hvc'. injection Hvc' as <- <-.
    rewrite Ha, Hb. unfold has_wave in *. rewrite existsb_app.
    intros Hw. apply orb_false_iff in Hw. destruct Hw as [Hc Hfired].
    specialize (HP Hc).
    apply discrete_commands_inv in Hd.
    destruct Hd as [[_ ->]|[[-> _]|[[-> _]|[_ ->]]]];
      try discriminate Hfired; [exact HP|].
    unfold play_pause. cbn.
    destruct (Mixer.get_busy (mixer s)); cbn; exact HP.
  - intros _. auto.
Qed.

Lemma track_changes_only_by_waves_witness :
  exists out,
    frame_iteration cfg3 st_playing (frame_at 1000 [hand_ok_sign]) = Ok out /\
    commands out = [PlayPauseToggle] /\
    current_song_index (state_after out) = 1.
Proof.
  eexists. split; [reflexivity|]. split; [reflexivity|].
  match goal with
  | |- current_song_index (state_after ?o) = _ =>
      exact (proj1 (track_changes_only_by_waves cfg3 st_playing
                      (frame_at 1000 [hand_ok_sign]) o
                      ltac:(discriminate) ltac:(repeat constructor)
                      eq_refl eq_refl))
  end.
Defined.
